(* ===================================================================== *)
(* street-based-demographics: scripts/permute_tlids.py                    *)
(*                                                                       *)
(* A shallow embedding of the permutation test (permute_houses,          *)
(* average_pvals, find_p_vals) and the properties of its specification.  *)
(*                                                                       *)
(* Modelling conventions                                                 *)
(*  - A pandas DataFrame is an index (row labels) and a dictionary from  *)
(*    column names to typed columns (gmap string Series).  Column order  *)
(*    is not observable by the script and is not modelled.                *)
(*  - Identifier columns (MAFID, BLKID, TLID) are int64 columns; grouping *)
(*    by a float column is outside the model (Unmodelled).                *)
(*  - A float64 cell is an exact rational or NaN: rounding and infinities *)
(*    are outside the model.                                              *)
(*  - Rows of the household table are addressed by position (its index   *)
(*    is the RangeIndex pd.merge produces).                               *)
(*  - DataFrames are mutable objects: they live in a heap and the        *)
(*    functions receive and return references.                            *)
(*  - random (the Python module) and numpy.random keep separate global   *)
(*    generator states; both are part of the world.                       *)
(* ===================================================================== *)

From Stdlib Require Import QArith Qabs.
From stdpp Require Import gmap strings list fin_maps sorting pretty.

Local Open Scope Z_scope.
Local Open Scope string_scope.
Local Open Scope list_scope.

(* --------------------------------------------------------------------- *)
(* Python exceptions and results                                          *)
(* --------------------------------------------------------------------- *)

Inductive Exception :=
  | KeyError (missing : list string)
  | ValueError
  | ZeroDivisionError
  | Unmodelled.

Inductive result (A : Type) :=
  | Ok (a : A)
  | Raise (e : Exception).
Arguments Ok {A} a.
Arguments Raise {A} e.

Definition rbind {A B} (r : result A) (k : A → result B) : result B :=
  match r with
  | Ok a => k a
  | Raise e => Raise e
  end.

(* --------------------------------------------------------------------- *)
(* Numbers                                                                *)
(* --------------------------------------------------------------------- *)

Inductive float :=
  | Fin (q : Q)
  | NaN.

Definition float_abs (x : float) : float :=
  match x with
  | Fin q => Fin (Qabs q)
  | NaN => NaN
  end.

(* x > y on floats: false as soon as one side is NaN *)
Definition float_gt (x y : float) : bool :=
  match x, y with
  | Fin a, Fin b => negb (Qle_bool a b)
  | _, _ => false
  end.

Definition finite_values (xs : list float) : list Q :=
  omap (λ x, match x with Fin q => Some q | NaN => None end) xs.

Definition Qsum (qs : list Q) : Q := foldr Qplus 0%Q qs.

(* pandas mean (skipna=True): NaN cells are skipped, the mean of nothing
   is NaN *)
Definition mean (xs : list float) : float :=
  match finite_values xs with
  | [] => NaN
  | q :: qs => Fin (Qsum (q :: qs) / inject_Z (Z.of_nat (length (q :: qs))))
  end.

(* a / b on Python ints *)
Definition py_truediv (a b : nat) : result float :=
  match b with
  | O => Raise ZeroDivisionError
  | S _ => Ok (Fin (Z.of_nat a # Pos.of_nat b))
  end.

(* str(i) on a Python int *)
Definition str (i : Z) : string := pretty i.

(* --------------------------------------------------------------------- *)
(* Series and DataFrames                                                  *)
(* --------------------------------------------------------------------- *)

Inductive Series :=
  | Int64 (xs : list Z)
  | Float64 (xs : list float).

Definition series_len (s : Series) : nat :=
  match s with
  | Int64 xs => length xs
  | Float64 xs => length xs
  end.

(* .astype(float) *)
Definition astype_float (s : Series) : list float :=
  match s with
  | Int64 xs => (λ z, Fin (inject_Z z)) <$> xs
  | Float64 xs => xs
  end.

(* .abs() *)
Definition series_abs (s : Series) : Series :=
  match s with
  | Int64 xs => Int64 (Z.abs <$> xs)
  | Float64 xs => Float64 (float_abs <$> xs)
  end.

Record DataFrame := mkDataFrame {
  index : list Z;
  columns : gmap string Series
}.

(* df.shape[0] *)
Definition nrows (df : DataFrame) : nat := length (index df).

(* every column is as long as the index *)
Definition wf_frame (df : DataFrame) : Prop :=
  map_Forall (λ _ s, series_len s = nrows df) (columns df).

Global Instance wf_frame_dec df : Decision (wf_frame df).
Proof. unfold wf_frame. apply _. Defined.

(* df[name] *)
Definition getitem (df : DataFrame) (name : string) : result Series :=
  match columns df !! name with
  | Some s => Ok s
  | None => Raise (KeyError [name])
  end.

Definition missing_labels (df : DataFrame) (names : list string) : list string :=
  filter (λ n, columns df !! n = None) names.

(* df[[name; ...]]: a new frame with the listed columns; KeyError naming
   the absent labels as soon as one is absent *)
Definition getitem_list (df : DataFrame) (names : list string) : result DataFrame :=
  match missing_labels df names with
  | [] => Ok (mkDataFrame (index df)
                (filter (λ kv, kv.1 ∈ names) (columns df)))
  | m :: ms => Raise (KeyError (m :: ms))
  end.

(* df[name] = series (the series carries the index of df) *)
Definition setitem (df : DataFrame) (name : string) (s : Series) : DataFrame :=
  mkDataFrame (index df) (<[name := s]> (columns df)).

(* df.loc[:, name] = scalar *)
Definition setitem_scalar (df : DataFrame) (name : string) (x : float) : DataFrame :=
  setitem df name (Float64 (replicate (nrows df) x)).

(* df.drop(names, axis=1): KeyError when a label is absent *)
Definition frame_drop (df : DataFrame) (names : list string) : result DataFrame :=
  match missing_labels df names with
  | [] => Ok (mkDataFrame (index df)
                (foldr delete (columns df) names))
  | m :: ms => Raise (KeyError (m :: ms))
  end.

(* df.abs() *)
Definition frame_abs (df : DataFrame) : DataFrame :=
  mkDataFrame (index df) (series_abs <$> columns df).

(* df[mask]: the rows where the boolean mask holds *)
Definition mask_select {A} (mask : list bool) (xs : list A) : list A :=
  (filter (λ bx, bx.1 = true) (zip mask xs)).*2.

Definition series_select (mask : list bool) (s : Series) : Series :=
  match s with
  | Int64 xs => Int64 (mask_select mask xs)
  | Float64 xs => Float64 (mask_select mask xs)
  end.

Definition boolean_index (df : DataFrame) (mask : list bool) : DataFrame :=
  mkDataFrame (mask_select mask (index df)) (series_select mask <$> columns df).

(* s1 > s2 on two Series: pandas refuses Series that are not identically
   labelled, and compares position by position otherwise *)
Definition series_gt (idx1 : list Z) (s1 : Series) (idx2 : list Z) (s2 : Series)
  : result (list bool) :=
  if decide (idx1 = idx2)
  then Ok (zip_with float_gt (astype_float s1) (astype_float s2))
  else Raise ValueError.

(* mean(axis=1) over a list of columns: the mean of each row *)
Definition row_means (n : nat) (cols : list (list float)) : list float :=
  (λ r, mean (omap (λ c, c !! r) cols)) <$> seq 0 n.

(* --------------------------------------------------------------------- *)
(* groupby                                                                *)
(* --------------------------------------------------------------------- *)

(* the group keys, ascending and without repetition (sort=True) *)
Definition unique_sorted (keys : list Z) : list Z :=
  merge_sort Z.le (elements (list_to_set keys : gset Z)).

(* the values of the rows whose key is k, in row order *)
Definition group_values {A} (keys : list Z) (vals : list A) (k : Z) : list A :=
  (filter (λ kv, kv.1 = k) (zip keys vals)).*2.

Definition as_keys (s : Series) : result (list Z) :=
  match s with
  | Int64 ks => Ok ks
  | Float64 _ => Raise Unmodelled
  end.

Definition group_means (keys : list Z) (groups : list Z) (s : Series) : Series :=
  Float64 ((λ k, mean (group_values keys (astype_float s) k)) <$> groups).

(* df[key :: vars].groupby([key]).mean() *)
Definition groupby_mean (df : DataFrame) (key : string) (vars : list string)
  : result DataFrame :=
  rbind (getitem_list df (key :: vars)) (λ sel,
  rbind (getitem sel key) (λ kcol,
  rbind (as_keys kcol) (λ keys,
  let groups := unique_sorted keys in
  Ok (mkDataFrame groups (group_means keys groups <$> delete key (columns sel)))))).

(* --------------------------------------------------------------------- *)
(* numpy.random                                                           *)
(* --------------------------------------------------------------------- *)

(* numpy's global generator: np.random.permutation returns a shuffled
   copy of its argument and advances the generator.  The only property
   of the generator the proofs use is that the copy is a permutation. *)
Class Generator := {
  rng : Type;
  permutation : ∀ {A : Type}, rng → list A → list A * rng;
  permutation_Permutation :
    ∀ (A : Type) (g : rng) (xs : list A), (permutation g xs).1 ≡ₚ xs
}.

(* A small generator to run the script on examples: a linear
   congruential generator, each element inserted at a drawn position. *)
Module Lcg.

Definition next (g : Z) : Z := (g * 1103515245 + 12345) `mod` 2147483648.

Definition insert_at {A} (j : nat) (x : A) (l : list A) : list A :=
  take j l ++ x :: drop j l.

Fixpoint shuffle {A} (g : Z) (xs : list A) : list A * Z :=
  match xs with
  | [] => ([], g)
  | x :: xs' =>
      let '(l, g1) := shuffle g xs' in
      let g2 := next g1 in
      (insert_at (Z.to_nat ((g2 `div` 65536) `mod` Z.of_nat (S (length l)))) x l, g2)
  end.

End Lcg.

(* --------------------------------------------------------------------- *)
(* The interpreter state and the monad of the script                     *)
(* --------------------------------------------------------------------- *)

Definition loc := nat.

Global Instance DataFrame_inhabited : Inhabited DataFrame :=
  populate (mkDataFrame [] ∅).

Section script.
Context {G : Generator}.

Record World := mkWorld {
  py_random : Z;             (* random: the seed its state derives from *)
  np_random : rng;           (* numpy.random: the global generator *)
  heap : list DataFrame      (* the DataFrame objects *)
}.

(* A computation runs in a world and returns a value or raises; the
   world it leaves behind is kept in both cases. *)
Definition Py (A : Type) : Type := World → result A * World.

Definition ret {A} (a : A) : Py A := λ w, (Ok a, w).

Definition raise {A} (e : Exception) : Py A := λ w, (Raise e, w).

Definition bind {A B} (m : Py A) (k : A → Py B) : Py B :=
  λ w, match m w with
       | (Ok a, w') => k a w'
       | (Raise e, w') => (Raise e, w')
       end.

Global Instance Py_ret : MRet Py := @ret.
Global Instance Py_bind : MBind Py := λ A B k m, bind m k.

Definition lift {A} (r : result A) : Py A :=
  match r with
  | Ok a => ret a
  | Raise e => raise e
  end.

Definition deref (l : loc) : Py DataFrame := λ w, (Ok (heap w !!! l), w).

Definition store (l : loc) (df : DataFrame) : Py unit :=
  λ w, (Ok (), mkWorld (py_random w) (np_random w) (<[l := df]> (heap w))).

Definition alloc (df : DataFrame) : Py loc :=
  λ w, (Ok (length (heap w)),
        mkWorld (py_random w) (np_random w) (heap w ++ [df])).

(* random.seed(seed) *)
Definition random_seed (seed : Z) : Py unit :=
  λ w, (Ok (), mkWorld seed (np_random w) (heap w)).

(* a draw from numpy's global generator *)
Definition np_draw {A} (f : rng → A * rng) : Py A :=
  λ w, let '(a, g) := f (np_random w) in
       (Ok a, mkWorld (py_random w) g (heap w)).

(* for x in xs: body(x) *)
Fixpoint for_ {A} (xs : list A) (body : A → Py unit) : Py unit :=
  match xs with
  | [] => ret ()
  | x :: xs' => body x;; for_ xs' body
  end.

(* range(n) *)
Definition range (n : nat) : list Z := Z.of_nat <$> seq 0 n.

(* --------------------------------------------------------------------- *)
(* groupby(key)[col].transform(np.random.permutation)                     *)
(* --------------------------------------------------------------------- *)

(* the groups are visited in key order; each one draws its permutation
   from the generator the previous one left *)
Fixpoint shuffle_groups {A} (keys : list Z) (vals : list A) (groups : list Z)
    (g : rng) : gmap Z (list A) * rng :=
  match groups with
  | [] => (∅, g)
  | k :: ks =>
      let '(res, g1) := permutation g (group_values keys vals k) in
      let '(pools, g2) := shuffle_groups keys vals ks g1 in
      (<[k := res]> pools, g2)
  end.

(* the results are written back in the original row order: each row
   takes the next value of its own group *)
Fixpoint reassemble {A} (keys : list Z) (pools : gmap Z (list A)) : list A :=
  match keys with
  | [] => []
  | k :: ks =>
      match pools !! k with
      | Some (v :: vs) => v :: reassemble ks (<[k := vs]> pools)
      | _ => reassemble ks pools
      end
  end.

Definition transform_permutation {A} (keys : list Z) (vals : list A) (g : rng)
  : list A * rng :=
  let '(pools, g') := shuffle_groups keys vals (unique_sorted keys) g in
  (reassemble keys pools, g').

Definition series_transform_permutation (keys : list Z) (s : Series) (g : rng)
  : Series * rng :=
  match s with
  | Int64 xs => let '(ys, g') := transform_permutation keys xs g in (Int64 ys, g')
  | Float64 xs => let '(ys, g') := transform_permutation keys xs g in (Float64 ys, g')
  end.

(* --------------------------------------------------------------------- *)
(* permute_tlids.py                                                       *)
(* --------------------------------------------------------------------- *)

Definition permuted_name (seed : Z) : string := "TLID_permuted_" +:+ str seed.

(* def permute_houses(dem_data, seed=1234) *)
Definition permute_houses (dem_data : loc) (seed : Z) : Py loc :=
  random_seed seed;;
  df ← deref dem_data;
  blkid ← lift (getitem df "BLKID");
  keys ← lift (as_keys blkid);
  tlid ← lift (getitem df "TLID");
  permuted ← np_draw (series_transform_permutation keys tlid);
  store dem_data (setitem df (permuted_name seed) permuted);;
  ret dem_data.

Definition tracked : list string := ["A"; "B"; "C"; "D"; "E"].

Definition p_name (col : string) (i : Z) : string := col +:+ "_p_" +:+ str i.
Definition avg_name (col : string) : string := col +:+ "_avg_p".

(* the body of the loop of average_pvals (lines 52-56) *)
Definition average_pvals_body (pval_df : loc) (iterations : nat) (col : string)
  : Py unit :=
  let p_val_cols := p_name col <$> range iterations in
  df ← deref pval_df;
  these_p_vals ← lift (getitem_list df p_val_cols);
  let avg_col_name := avg_name col in
  let cols := omap (λ n, astype_float <$> columns these_p_vals !! n) p_val_cols in
  store pval_df
    (setitem df avg_col_name (Float64 (row_means (nrows these_p_vals) cols)));;
  df1 ← deref pval_df;
  df2 ← lift (frame_drop df1 p_val_cols);
  store pval_df df2.

(* def average_pvals(pval_df, iterations=10) *)
Definition average_pvals (pval_df : loc) (iterations : nat) : Py loc :=
  for_ tracked (average_pvals_body pval_df iterations);;
  ret pval_df.

(* synth_aggs[synth_aggs.abs()[col] > aggs.abs()[col]].shape[0]
     / synth_aggs.shape[0] *)
Definition p_value (synth_aggs aggs : DataFrame) (col : string) : result float :=
  rbind (getitem (frame_abs synth_aggs) col) (λ s,
  rbind (getitem (frame_abs aggs) col) (λ a,
  rbind (series_gt (index synth_aggs) s (index aggs) a) (λ mask,
  py_truediv (nrows (boolean_index synth_aggs mask)) (nrows synth_aggs)))).

(* the body of the loop over the variables (line 93) *)
Definition p_value_body (aggs : loc) (synth_aggs : DataFrame) (i : Z)
    (col : string) : Py unit :=
  a ← deref aggs;
  p ← lift (p_value synth_aggs a col);
  store aggs (setitem_scalar a (p_name col i) p).

(* the body of the loop over the iterations (lines 90-93) *)
Definition iteration_body (data aggs : loc) (i : Z) : Py unit :=
  shuffled_data ← permute_houses data i;
  sd ← deref shuffled_data;
  synth_aggs ← lift (groupby_mean sd (permuted_name i) tracked);
  for_ tracked (p_value_body aggs synth_aggs i).

(* find_p_vals up to the call of average_pvals (lines 85-93): the true
   aggregate and one p-value column per variable and iteration *)
Definition compute_pvalues (data : loc) (iterations : nat) : Py loc :=
  df ← deref data;
  aggs0 ← lift (groupby_mean df "TLID" tracked);
  aggs ← alloc aggs0;
  for_ (range iterations) (iteration_body data aggs);;
  ret aggs.

(* def find_p_vals(data, iterations=10) *)
Definition find_p_vals (data : loc) (iterations : nat) : Py loc :=
  aggs ← compute_pvalues data iterations;
  average_pvals aggs iterations.

End script.

(* --------------------------------------------------------------------- *)
(* The vocabulary of the statements                                      *)
(* --------------------------------------------------------------------- *)

(* the values a group has left to hand out *)
Definition pool {A} (pools : gmap Z (list A)) (k : Z) : list A :=
  default [] (pools !! k).

(* the mean of a column over each segment, in key order *)
Definition segment_means (keys : list Z) (s : Series) : list float :=
  (λ k, mean (group_values keys (astype_float s) k)) <$> unique_sorted keys.

(* the table groupby_mean builds when the key column holds keys *)
Definition aggregate (df : DataFrame) (key : string) (keys : list Z)
    (vars : list string) : DataFrame :=
  mkDataFrame (unique_sorted keys)
    (group_means keys (unique_sorted keys) <$>
       delete key (filter (λ kv, kv.1 ∈ key :: vars) (columns df))).

(* the rows where the first column exceeds the second in magnitude, the
   two columns read side by side *)
Definition matched_exceed_count (xs ys : list float) : nat :=
  length (filter (λ xy, float_gt (float_abs xy.1) (float_abs xy.2) = true)
            (zip xs ys)).

(* the values of a column that exceed one given value in magnitude *)
Definition global_exceed_count (xs : list float) (y : float) : nat :=
  length (filter (λ x, float_gt (float_abs x) (float_abs y) = true) xs).

Definition unit_interval (x : float) : Prop :=
  match x with
  | Fin q => (0 <= q <= 1)%Q
  | NaN => False
  end.

(* the per-iteration p-value columns of a variable, as floats *)
Definition p_columns (df : DataFrame) (col : string) (iterations : nat)
  : list (list float) :=
  omap (λ n, astype_float <$> columns df !! n) (p_name col <$> range iterations).

(* the averaged column of a variable *)
Definition averaged (df : DataFrame) (col : string) (iterations : nat) : Series :=
  Float64 (row_means (nrows df) (p_columns df col iterations)).

(* one turn of the loop of average_pvals on a table that has the
   per-iteration columns of the variable *)
Definition collapse (iterations : nat) (df : DataFrame) (col : string) : DataFrame :=
  mkDataFrame (index df)
    (foldr delete (<[avg_name col := averaged df col iterations]> (columns df))
       (p_name col <$> range iterations)).

(* the table has all the per-iteration columns of the variable *)
Definition complete (N : nat) (df : DataFrame) (v : string) : Prop :=
  ∀ j, 0 ≤ j < Z.of_nat N → is_Some (columns df !! p_name v j).

(* the cell of a column at a row, read as a float *)
Definition cell (df : DataFrame) (name : string) (r : nat) : option float :=
  s ← columns df !! name; astype_float s !! r.

(* the table after the p-values pv of the variables vs have been
   written for iteration i *)
Definition recorded (i : Z) (pv : string → float) (a : DataFrame)
    (vs : list string) : DataFrame :=
  foldl (λ a c, setitem_scalar a (p_name c i) (pv c)) a vs.

(* the household table: its columns have the length of the index, the
   two key columns hold integers and the tracked variables are there *)
Definition households (df : DataFrame) (blk tl : list Z) : Prop :=
  wf_frame df ∧
  columns df !! "BLKID" = Some (Int64 blk) ∧
  columns df !! "TLID" = Some (Int64 tl) ∧
  ∀ v, v ∈ tracked → is_Some (columns df !! v).

(* the number line 93 writes for a variable: the share of the segments
   whose permuted mean exceeds, in magnitude, the true mean of the same
   segment *)
Definition p_scalar (permuted tl : list Z) (s : Series) : float :=
  Fin (Z.of_nat (matched_exceed_count (segment_means permuted s) (segment_means tl s))
       # Pos.of_nat (length (unique_sorted permuted))).

Definition p_of (df : DataFrame) (permuted tl : list Z) (c : string) : float :=
  from_option (p_scalar permuted tl) NaN (columns df !! c).

Section statements.
Context {G : Generator}.
Implicit Types (w : World) (df : DataFrame).

Definition set_heap (w : World) (h : list DataFrame) : World :=
  mkWorld (py_random w) (np_random w) h.

(* the state of the loop after i variables *)
Definition averaging (w : World) (l : loc) (T : DataFrame) (N i : nat)
    (w1 : World) : Prop :=
  w1 = set_heap w (<[l := foldl (collapse N) T (take i tracked)]> (heap w)) ∧
  ∀ v, v ∈ take i tracked → complete N T v.

(* the state of the loop of find_p_vals after i iterations: the
   household table df0 has gained i permuted-label columns, the table of
   aggregates one p-value column per variable and iteration *)
Definition computing (data aggs : loc) (df0 : DataFrame) (blk tl : list Z)
    (h0 : list DataFrame) (i : nat) (w1 : World) : Prop :=
  ∃ dfi T,
    length (heap w1) = length h0 ∧
    (∀ l, l ≠ data → l ≠ aggs → heap w1 !! l = h0 !! l) ∧
    heap w1 !! data = Some dfi ∧
    heap w1 !! aggs = Some T ∧
    index dfi = index df0 ∧
    (∀ n, (∀ j, (j < i)%nat → n ≠ permuted_name (Z.of_nat j)) →
          columns dfi !! n = columns df0 !! n) ∧
    index T = unique_sorted tl ∧
    (∀ n, (∀ c j, c ∈ tracked → (j < i)%nat → n ≠ p_name c (Z.of_nat j)) →
          columns T !! n = columns (aggregate df0 "TLID" tl tracked) !! n) ∧
    (∀ j, (j < i)%nat → ∃ pj,
        columns dfi !! permuted_name (Z.of_nat j) = Some (Int64 pj) ∧
        length pj = length blk ∧
        (∀ b, group_values blk pj b ≡ₚ group_values blk tl b) ∧
        (∀ x, x ∈ pj ↔ x ∈ tl) ∧
        ∀ c, c ∈ tracked →
          columns T !! p_name c (Z.of_nat j) =
            Some (Float64 (replicate (length (unique_sorted tl)) (p_of df0 pj tl c)))).

(* the statement of the specification: the p-value of a segment counts
   the permuted means that exceed the true mean of that segment *)
Definition global_comparison : Prop :=
  ∀ w data df blk tl N aggs w' dfN T (i : nat) c synth xs r y,
    heap w !! data = Some df →
    households df blk tl →
    compute_pvalues data N w = (Ok aggs, w') →
    heap w' !! data = Some dfN →
    heap w' !! aggs = Some T →
    (i < N)%nat → c ∈ tracked →
    groupby_mean dfN (permuted_name (Z.of_nat i)) tracked = Ok synth →
    columns synth !! c = Some (Float64 xs) →
    cell T c r = Some y →
    cell T (p_name c (Z.of_nat i)) r =
      Some (Fin (Z.of_nat (global_exceed_count xs y) # Pos.of_nat (nrows synth))).

(* what the specification asks of compute_pvalues followed by
   average_pvalues with the same iteration count *)
Definition round_trip (w : World) (data : loc) (tl : list Z) (N : nat) : Prop :=
  ∃ aggs w1 w2 T T',
    compute_pvalues data N w = (Ok aggs, w1) ∧
    heap w1 !! aggs = Some T ∧
    average_pvals aggs N w1 = (Ok aggs, w2) ∧
    heap w2 !! aggs = Some T' ∧
    (∀ c j, c ∈ tracked → columns T' !! p_name c j = None) ∧
    dom (columns T') = list_to_set (tracked ++ (avg_name <$> tracked)) ∧
    index T = unique_sorted tl ∧
    index T' = index T.

Definition round_trip_on_every_table : Prop :=
  ∀ w data df blk tl N,
    heap w !! data = Some df → households df blk tl → N ≠ 0%nat →
    round_trip w data tl N.

(* no variable of the table has been aggregated: no averaged column has
   been written and no per-iteration column has been removed *)
Definition not_aggregated (T T' : DataFrame) : Prop :=
  ∀ u, u ∈ tracked →
    columns T' !! avg_name u = columns T !! avg_name u ∧
    ∀ i, columns T' !! p_name u i = columns T !! p_name u i.

(* what the specification asks of average_pvals on a table that lacks a
   per-iteration column the iteration count calls for: a missing-column
   error, and no aggregation, not even a partial one *)
Definition missing_column_without_aggregation : Prop :=
  ∀ w pval_df T N v j,
    heap w !! pval_df = Some T →
    v ∈ tracked → 0 ≤ j < Z.of_nat N →
    columns T !! p_name v j = None →
    ∃ ms w' T',
      average_pvals pval_df N w = (Raise (KeyError ms), w') ∧
      heap w' !! pval_df = Some T' ∧
      not_aggregated T T'.

End statements.

(* --------------------------------------------------------------------- *)
(* A generator to run the script on examples, and example tables         *)
(* --------------------------------------------------------------------- *)

Definition lcg : Generator.
Proof.
  refine {| rng := Z; permutation := @Lcg.shuffle; permutation_Permutation := _ |}.
  intros A g xs. revert g. induction xs as [|x xs IH]; intros g; simpl; [done|].
  specialize (IH g). destruct (Lcg.shuffle g xs) as [l g1]; simpl in *.
  unfold Lcg.insert_at. rewrite <- Permutation_middle, take_drop. by rewrite IH.
Defined.

(* four households: three in block 10 on three segments, one in block 20 *)
Definition ex_table : DataFrame :=
  mkDataFrame [0; 1; 2; 3]
    (list_to_map
       [("MAFID", Int64 [100; 101; 102; 103]);
        ("BLKID", Int64 [10; 10; 10; 20]);
        ("TLID", Int64 [1; 2; 3; 4]);
        ("A", Float64 [Fin 1; Fin 3; Fin 5; Fin 2]);
        ("B", Float64 [Fin (-2); Fin 1; Fin 4; Fin 0]);
        ("C", Float64 [Fin 7; Fin 7; Fin 7; Fin 7]);
        ("D", Float64 [Fin (1 # 2); Fin (3 # 2); Fin (-1); Fin 6]);
        ("E", Int64 [4; 3; 2; 1])]).

Definition ex_world : World (G := lcg) := @mkWorld lcg 0 42 [ex_table].

(* the same table in a process whose numpy generator is in another state *)
Definition ex_world' : World (G := lcg) := @mkWorld lcg 0 43 [ex_table].

(* two blocks of one household each *)
Definition ex_singletons : DataFrame :=
  mkDataFrame [0; 1]
    (list_to_map
       [("MAFID", Int64 [100; 101]);
        ("BLKID", Int64 [10; 20]);
        ("TLID", Int64 [1; 2]);
        ("A", Float64 [Fin 1; Fin 3]);
        ("B", Float64 [Fin 1; Fin 3]);
        ("C", Float64 [Fin 1; Fin 3]);
        ("D", Float64 [Fin 1; Fin 3]);
        ("E", Float64 [Fin 1; Fin 3])]).

Definition ex_singletons_world : World (G := lcg) := @mkWorld lcg 0 42 [ex_singletons].

(* a table with the expected columns and no household *)
Definition ex_empty : DataFrame :=
  mkDataFrame []
    (list_to_map
       [("MAFID", Int64 []);
        ("BLKID", Int64 []);
        ("TLID", Int64 []);
        ("A", Float64 []);
        ("B", Float64 []);
        ("C", Float64 []);
        ("D", Float64 []);
        ("E", Float64 [])]).

Definition ex_empty_world : World (G := lcg) := @mkWorld lcg 0 42 [ex_empty].

(* the p-value table of two iterations over ex_table *)
Definition ex_pvalues : DataFrame :=
  Eval vm_compute in heap (compute_pvalues 0%nat 2 ex_world).2 !!! 1%nat.

Definition ex_pvalues_world : World (G := lcg) := @mkWorld lcg 0 42 [ex_pvalues].

(* the same table without the column of C for iteration 1 *)
Definition ex_incomplete : DataFrame :=
  mkDataFrame (index ex_pvalues) (delete "C_p_1" (columns ex_pvalues)).

Definition ex_incomplete_world : World (G := lcg) := @mkWorld lcg 0 42 [ex_incomplete].

(* --------------------------------------------------------------------- *)
(* Further vocabulary and example tables                                 *)
(* --------------------------------------------------------------------- *)

(* a number that is zero *)
Definition is_zero (x : float) : Prop :=
  match x with
  | Fin q => (q == 0)%Q
  | NaN => False
  end.

(* ex_table without one of its columns *)
Definition ex_no_blkid : DataFrame :=
  mkDataFrame (index ex_table) (delete "BLKID" (columns ex_table)).

Definition ex_no_blkid_world : World (G := lcg) := @mkWorld lcg 5 42 [ex_no_blkid].

Definition ex_no_tlid : DataFrame :=
  mkDataFrame (index ex_table) (delete "TLID" (columns ex_table)).

Definition ex_no_tlid_world : World (G := lcg) := @mkWorld lcg 5 42 [ex_no_tlid].

Definition ex_no_variable : DataFrame :=
  mkDataFrame (index ex_table) (delete "C" (columns ex_table)).

Definition ex_no_variable_world : World (G := lcg) :=
  @mkWorld lcg 5 42 [ex_no_variable].

(* three households, two in a block that lies on one segment *)
Definition ex_one_segment : DataFrame :=
  mkDataFrame [0; 1; 2]
    (list_to_map
       [("MAFID", Int64 [100; 101; 102]);
        ("BLKID", Int64 [10; 10; 20]);
        ("TLID", Int64 [1; 1; 2]);
        ("A", Float64 [Fin 1; Fin 3; Fin 5]);
        ("B", Float64 [Fin (-2); Fin 1; Fin 4]);
        ("C", Float64 [Fin 7; Fin 7; Fin 7]);
        ("D", Float64 [Fin (1 # 2); Fin (3 # 2); Fin (-1)]);
        ("E", Int64 [4; 3; 2])]).

Definition ex_one_segment_world : World (G := lcg) :=
  @mkWorld lcg 0 42 [ex_one_segment].

(* --------------------------------------------------------------------- *)
(* Lemmas                                                                *)
(* --------------------------------------------------------------------- *)

(* --------------------------------------------------------------------- *)
(* Groups                                                                 *)
(* --------------------------------------------------------------------- *)

Section groups.
Context {A : Type}.
Implicit Types (keys groups : list Z) (vals : list A) (k : Z).

Lemma group_values_nil vals k : group_values [] vals k = [].
Proof. done. Qed.

Lemma group_values_cons k' keys v vals k :
  group_values (k' :: keys) (v :: vals) k =
    if decide (k' = k) then v :: group_values keys vals k
    else group_values keys vals k.
Proof.
  unfold group_values. simpl. rewrite filter_cons. simpl.
  by destruct (decide (k' = k)).
Qed.

Lemma group_values_length keys vals k :
  length keys = length vals →
  length (group_values keys vals k) = length (filter (λ k', k' = k) keys).
Proof.
  revert vals. induction keys as [|k' keys IH]; intros [|v vals] Hlen;
    simplify_eq/=; [done|].
  rewrite group_values_cons, filter_cons.
  destruct (decide (k' = k)); simpl; by rewrite IH.
Qed.

Lemma group_values_not_elem keys vals k :
  k ∉ keys → group_values keys vals k = [].
Proof.
  revert vals. induction keys as [|k' keys IH]; intros [|v vals] Hk; try done.
  rewrite group_values_cons. apply not_elem_of_cons in Hk as [??].
  destruct (decide (k' = k)); [congruence|]. by apply IH.
Qed.

Lemma group_values_elem keys vals k x :
  x ∈ group_values keys vals k → x ∈ vals.
Proof.
  revert vals. induction keys as [|k' keys IH]; intros [|v vals]; try by inversion 1.
  rewrite group_values_cons. destruct (decide (k' = k)).
  - intros [->|?]%elem_of_cons; [left|right; eauto].
  - intros ?. right. eauto.
Qed.

(* row r of a column belongs to the group of the key of row r *)
Lemma group_values_lookup keys vals r k x :
  keys !! r = Some k → vals !! r = Some x → x ∈ group_values keys vals k.
Proof.
  revert vals r. induction keys as [|k' keys IH]; intros [|v vals] [|r] Hk Hx;
    simplify_eq/=; rewrite group_values_cons.
  - rewrite decide_True by done. left.
  - destruct (decide (k' = k)); [right|]; eauto.
Qed.


End groups.

Lemma unique_sorted_elem keys k : k ∈ unique_sorted keys ↔ k ∈ keys.
Proof.
  unfold unique_sorted. rewrite merge_sort_Permutation.
  rewrite elem_of_elements. set_solver.
Qed.

Lemma unique_sorted_ext keys1 keys2 :
  (∀ k, k ∈ keys1 ↔ k ∈ keys2) → unique_sorted keys1 = unique_sorted keys2.
Proof.
  intros H. unfold unique_sorted. f_equal. f_equal.
  apply set_eq. intros k. by rewrite !elem_of_list_to_set.
Qed.

Lemma unique_sorted_nil_inv keys : unique_sorted keys = [] → keys = [].
Proof.
  intros H. destruct keys as [|k keys]; [done|].
  assert (k ∈ unique_sorted (k :: keys)) as Hk by (apply unique_sorted_elem; left).
  rewrite H in Hk. by apply elem_of_nil in Hk.
Qed.

(* --------------------------------------------------------------------- *)
(* The grouped permutation                                                *)
(* --------------------------------------------------------------------- *)

Section transform.
Context {G : Generator} {A : Type}.
Implicit Types (keys groups : list Z) (vals : list A) (k : Z).

Lemma shuffle_groups_pool keys vals groups g k :
  pool (shuffle_groups keys vals groups g).1 k ≡ₚ
    if decide (k ∈ groups) then group_values keys vals k else [].
Proof.
  revert g. induction groups as [|k' groups IH]; intros g; simpl.
  { unfold pool. by rewrite lookup_empty. }
  pose proof (permutation_Permutation A g (group_values keys vals k')) as Hp.
  destruct (permutation g (group_values keys vals k')) as [res g1].
  specialize (IH g1).
  destruct (shuffle_groups keys vals groups g1) as [pools g2]. simpl in *.
  unfold pool in *. destruct (decide (k' = k)) as [->|Hne].
  - rewrite lookup_insert_eq. simpl. rewrite decide_True; [done|left].
  - rewrite lookup_insert_ne by done. rewrite IH.
    destruct (decide (k ∈ groups)).
    + rewrite decide_True; [done|by right].
    + rewrite decide_False; [done|]. by intros [?|?]%elem_of_cons.
Qed.

Lemma reassemble_group keys (pools : gmap Z (list A)) :
  (∀ k, length (pool pools k) = length (filter (λ k', k' = k) keys)) →
  length (reassemble keys pools) = length keys ∧
  ∀ k, group_values keys (reassemble keys pools) k = pool pools k.
Proof.
  revert pools. induction keys as [|k' keys IH]; intros pools Hlen.
  { split; [done|]. intros k. specialize (Hlen k). simpl in Hlen.
    rewrite group_values_nil. symmetry. by apply nil_length_inv. }
  simpl. pose proof (Hlen k') as Hk'.
  rewrite filter_cons, decide_True in Hk' by done. simpl in Hk'.
  unfold pool in Hk'. destruct (pools !! k') as [[|v vs]|] eqn:Hpk; simplify_eq/=.
  destruct (IH (<[k' := vs]> pools)) as [IHl IHg].
  { intros k. specialize (Hlen k). rewrite filter_cons in Hlen.
    unfold pool in *. destruct (decide (k' = k)) as [->|Hne].
    - rewrite lookup_insert_eq. simpl. done.
    - rewrite lookup_insert_ne by done. done. }
  split; [simpl; by rewrite IHl|].
  intros k. rewrite group_values_cons, IHg. unfold pool.
  destruct (decide (k' = k)) as [->|Hne].
  - by rewrite lookup_insert_eq, Hpk.
  - by rewrite lookup_insert_ne.
Qed.

(* the permuted column is as long as the table and, block by block, a
   permutation of the values of the block *)
Lemma transform_permutation_group keys vals g :
  length keys = length vals →
  length (transform_permutation keys vals g).1 = length keys ∧
  ∀ k, group_values keys (transform_permutation keys vals g).1 k ≡ₚ
         group_values keys vals k.
Proof.
  intros Hlen. unfold transform_permutation.
  pose proof (shuffle_groups_pool keys vals (unique_sorted keys) g) as Hp.
  destruct (shuffle_groups keys vals (unique_sorted keys) g) as [pools g'].
  simpl in *.
  assert (∀ k, pool pools k ≡ₚ group_values keys vals k) as Hp'.
  { intros k. rewrite Hp. destruct (decide (k ∈ unique_sorted keys)) as [|Hn]; [done|].
    rewrite group_values_not_elem; [done|]. by rewrite <- unique_sorted_elem. }
  destruct (reassemble_group keys pools) as [Hl Hg].
  { intros k. rewrite (Permutation_length (Hp' k)). by apply group_values_length. }
  split; [done|]. intros k. by rewrite Hg.
Qed.

End transform.

(* --------------------------------------------------------------------- *)
(* Running the script                                                     *)
(* --------------------------------------------------------------------- *)

Section run.
Context {G : Generator}.
Implicit Types (w : World) (df : DataFrame).

Lemma bind_ok {A B} (m : Py A) (k : A → Py B) w a w' :
  m w = (Ok a, w') → (m ≫= k) w = k a w'.
Proof. intros H. unfold mbind, Py_bind, bind. by rewrite H. Qed.

Lemma bind_raise {A B} (m : Py A) (k : A → Py B) w e w' :
  m w = (Raise e, w') → (m ≫= k) w = (Raise e, w').
Proof. intros H. unfold mbind, Py_bind, bind. by rewrite H. Qed.

Lemma deref_ok l w df : heap w !! l = Some df → deref l w = (Ok df, w).
Proof. intros H. unfold deref. by rewrite (list_lookup_total_correct _ _ _ H). Qed.

Lemma lift_ok {A} (r : result A) a w : r = Ok a → lift r w = (Ok a, w).
Proof. by intros ->. Qed.

Lemma lift_raise {A} (r : result A) e w : r = Raise e → lift r w = (Raise e, w).
Proof. by intros ->. Qed.

(* a loop whose body keeps an invariant runs to its end *)
Lemma for_invariant {A} (I : nat → World → Prop) (xs : list A) body w :
  I 0%nat w →
  (∀ i x w1, xs !! i = Some x → I i w1 →
     ∃ w2, body x w1 = (Ok (), w2) ∧ I (S i) w2) →
  ∃ w', for_ xs body w = (Ok (), w') ∧ I (length xs) w'.
Proof.
  revert I w. induction xs as [|x xs IH]; intros I w H0 Hstep; simpl.
  { by exists w. }
  destruct (Hstep 0%nat x w eq_refl H0) as (w1 & Hx & H1).
  destruct (IH (λ i, I (S i)) w1 H1) as (w' & Hrun & Hend).
  { intros i y w2 Hy Hi. by apply (Hstep (S i)). }
  exists w'. split; [|done]. by rewrite (bind_ok _ _ _ _ _ Hx).
Qed.

(* a loop raises as soon as an iteration does, and it does not get past
   an iteration that must raise *)
Lemma for_raise {A} (I : nat → World → Prop) (E : Exception → World → Prop)
    (xs : list A) body w n x :
  I 0%nat w →
  xs !! n = Some x →
  (∀ i y w1, (i < n)%nat → xs !! i = Some y → I i w1 →
     (∃ w2, body y w1 = (Ok (), w2) ∧ I (S i) w2) ∨
     (∃ e w2, body y w1 = (Raise e, w2) ∧ E e w2)) →
  (∀ w1, I n w1 → ∃ e w2, body x w1 = (Raise e, w2) ∧ E e w2) →
  ∃ e w', for_ xs body w = (Raise e, w') ∧ E e w'.
Proof.
  revert I w n. induction xs as [|y xs IH]; intros I w n H0 Hn Hstep Hfail;
    [done|].
  destruct n as [|n]; simplify_eq/=.
  { destruct (Hfail w H0) as (e & w2 & Hx & He). exists e, w2.
    by rewrite (bind_raise _ _ _ _ _ Hx). }
  destruct (Hstep 0%nat y w ltac:(lia) eq_refl H0)
    as [(w1 & Hy & H1)|(e & w2 & Hy & He)].
  - destruct (IH (λ i, I (S i)) w1 n H1 Hn) as (e & w' & Hrun & He).
    { intros i z w2 Hi Hz HI. apply (Hstep (S i)); [lia|done..]. }
    { done. }
    exists e, w'. by rewrite (bind_ok _ _ _ _ _ Hy).
  - exists e, w2. by rewrite (bind_raise _ _ _ _ _ Hy).
Qed.

Lemma range_lookup n i x : range n !! i = Some x → x = Z.of_nat i ∧ (i < n)%nat.
Proof.
  unfold range. rewrite list_lookup_fmap. intros H.
  destruct (seq 0 n !! i) as [j|] eqn:Hj; simplify_eq/=.
  apply lookup_seq in Hj as [-> ?]. done.
Qed.

Lemma range_length n : length (range n) = n.
Proof. unfold range. by rewrite length_fmap, length_seq. Qed.

(* permute_houses, run on a table that has its two key columns *)
Lemma permute_houses_run w dem_data seed df blk tlid :
  heap w !! dem_data = Some df →
  columns df !! "BLKID" = Some (Int64 blk) →
  columns df !! "TLID" = Some tlid →
  permute_houses dem_data seed w =
    (Ok dem_data,
     mkWorld seed (series_transform_permutation blk tlid (np_random w)).2
       (<[dem_data :=
            setitem df (permuted_name seed)
              (series_transform_permutation blk tlid (np_random w)).1]> (heap w))).
Proof.
  intros Hdf Hblk Htl. unfold permute_houses.
  unfold mbind, Py_bind, bind, random_seed, deref, lift, getitem, np_draw, store.
  simpl. rewrite (list_lookup_total_correct _ _ _ Hdf), Hblk. simpl.
  rewrite Htl. simpl.
  by destruct (series_transform_permutation blk tlid (np_random w)).
Qed.

End run.

(* --------------------------------------------------------------------- *)
(* permute_houses                                                         *)
(* --------------------------------------------------------------------- *)

Section permute.
Context {G : Generator}.
Implicit Types (w : World) (df : DataFrame).

Lemma wf_frame_lookup df name s :
  wf_frame df → columns df !! name = Some s → series_len s = nrows df.
Proof. intros Hwf Hs. by apply (Hwf name s). Qed.

(* the permuted column uses the segment keys of the table, and all of them *)
Lemma transform_permutation_elem (keys vals : list Z) (g : rng) x :
  length keys = length vals →
  x ∈ (transform_permutation keys vals g).1 ↔ x ∈ vals.
Proof.
  intros Hlen.
  destruct (transform_permutation_group keys vals g Hlen) as [Hl Hg].
  set (new := (transform_permutation keys vals g).1) in *.
  split; intros [r Hr]%list_elem_of_lookup.
  - destruct (lookup_lt_is_Some_2 keys r) as [k Hk].
    { rewrite <- Hl. by eapply lookup_lt_Some. }
    pose proof (group_values_lookup _ _ _ _ _ Hk Hr) as Hin.
    rewrite Hg in Hin. by eapply group_values_elem.
  - destruct (lookup_lt_is_Some_2 keys r) as [k Hk].
    { rewrite Hlen. by eapply lookup_lt_Some. }
    pose proof (group_values_lookup _ _ _ _ _ Hk Hr) as Hin.
    rewrite <- Hg in Hin. by eapply group_values_elem.
Qed.



(* the permuted column is drawn from numpy's generator: the seed only
   names the column and reseeds the generator of random *)
Lemma permute_houses_column_of_np_random w1 w2 dem_data seed1 seed2 df blk tlid :
  heap w1 !! dem_data = Some df →
  heap w2 !! dem_data = Some df →
  np_random w1 = np_random w2 →
  columns df !! "BLKID" = Some (Int64 blk) →
  columns df !! "TLID" = Some tlid →
  ∃ w1' w2' permuted,
    permute_houses dem_data seed1 w1 = (Ok dem_data, w1') ∧
    permute_houses dem_data seed2 w2 = (Ok dem_data, w2') ∧
    heap w1' !! dem_data = Some (setitem df (permuted_name seed1) permuted) ∧
    heap w2' !! dem_data = Some (setitem df (permuted_name seed2) permuted) ∧
    py_random w1' = seed1 ∧ py_random w2' = seed2 ∧
    np_random w1' = np_random w2'.
Proof.
  intros H1 H2 Hnp Hblk Htl.
  rewrite (permute_houses_run w1 dem_data seed1 df blk tlid) by done.
  rewrite (permute_houses_run w2 dem_data seed2 df blk tlid) by done.
  rewrite Hnp. eexists _, _, _. repeat split; simpl.
  - apply list_lookup_insert_eq. by eapply lookup_lt_Some.
  - apply list_lookup_insert_eq. by eapply lookup_lt_Some.
Qed.

End permute.

(* --------------------------------------------------------------------- *)
(* Column names                                                           *)
(* --------------------------------------------------------------------- *)

Ltac tracked_cases H :=
  unfold tracked in H;
  repeat (apply elem_of_cons in H as [->|H]);
  [..|by apply elem_of_nil in H].

Lemma permuted_name_inj i j : permuted_name i = permuted_name j → i = j.
Proof.
  unfold permuted_name, str. intros H.
  apply (inj (String.app _)) in H. by apply (inj pretty) in H.
Qed.

Lemma permuted_name_not_key i :
  (permuted_name i ∉ "TLID" :: tracked) ∧ (permuted_name i ≠ "BLKID").
Proof.
  split; [|done]. unfold tracked. rewrite !not_elem_of_cons.
  repeat split; try done. apply not_elem_of_nil.
Qed.

Lemma p_name_inj c c' i j :
  c ∈ tracked → c' ∈ tracked → p_name c i = p_name c' j → c = c' ∧ i = j.
Proof.
  intros Hc Hc' H. tracked_cases Hc; tracked_cases Hc'; try done;
    (split; [done|]); unfold p_name, str in H; simplify_eq/=;
    by apply (inj pretty).
Qed.

Lemma p_name_not_avg c c' i :
  c ∈ tracked → c' ∈ tracked → p_name c i ≠ avg_name c'.
Proof. intros Hc Hc'. by tracked_cases Hc; tracked_cases Hc'. Qed.

Lemma p_name_not_tracked c i : c ∈ tracked → p_name c i ∉ tracked.
Proof.
  intros Hc Hin. unfold tracked in Hin.
  rewrite !elem_of_cons, elem_of_nil in Hin.
  tracked_cases Hc; destruct Hin as [?|[?|[?|[?|[?|[]]]]]]; done.
Qed.

Lemma avg_name_not_tracked c : c ∈ tracked → avg_name c ∉ tracked.
Proof.
  intros Hc Hin. unfold tracked in Hin.
  rewrite !elem_of_cons, elem_of_nil in Hin.
  tracked_cases Hc; destruct Hin as [?|[?|[?|[?|[?|[]]]]]]; done.
Qed.

Lemma avg_name_inj c c' :
  c ∈ tracked → c' ∈ tracked → avg_name c = avg_name c' → c = c'.
Proof. intros Hc Hc' H. by tracked_cases Hc; tracked_cases Hc'. Qed.

Lemma tracked_not_key : "TLID" ∉ tracked.
Proof.
  unfold tracked. rewrite !elem_of_cons, elem_of_nil.
  intros [?|[?|[?|[?|[?|[]]]]]]; done.
Qed.

(* --------------------------------------------------------------------- *)
(* Selecting and dropping columns                                         *)
(* --------------------------------------------------------------------- *)

Lemma missing_labels_nil df names :
  missing_labels df names = [] ↔ ∀ n, n ∈ names → is_Some (columns df !! n).
Proof.
  unfold missing_labels. split.
  - intros H n Hn. destruct (columns df !! n) eqn:Hc; [done|].
    assert (n ∈ filter (λ n, columns df !! n = None) names) as Hin
      by by apply list_elem_of_filter.
    rewrite H in Hin. by apply elem_of_nil in Hin.
  - intros H. destruct (filter _ names) as [|m ms] eqn:Hf; [done|].
    assert (m ∈ filter (λ n, columns df !! n = None) names) as Hin
      by (rewrite Hf; left).
    apply list_elem_of_filter in Hin as [Hnone Hin].
    destruct (H m Hin) as [? ?]. congruence.
Qed.

Lemma missing_labels_elem df names m :
  m ∈ missing_labels df names ↔ columns df !! m = None ∧ m ∈ names.
Proof.
  unfold missing_labels.
  apply (list_elem_of_filter (λ n, columns df !! n = None)).
Qed.

Lemma getitem_list_ok df names :
  (∀ n, n ∈ names → is_Some (columns df !! n)) →
  getitem_list df names =
    Ok (mkDataFrame (index df) (filter (λ kv, kv.1 ∈ names) (columns df))).
Proof.
  intros H. unfold getitem_list. by apply missing_labels_nil in H as ->.
Qed.

Lemma getitem_list_raise df names n :
  n ∈ names → columns df !! n = None →
  ∃ ms, getitem_list df names = Raise (KeyError ms) ∧ n ∈ ms ∧
        ∀ m, m ∈ ms → columns df !! m = None ∧ m ∈ names.
Proof.
  intros Hn Hnone. unfold getitem_list.
  assert (n ∈ missing_labels df names) as Hin by by apply missing_labels_elem.
  destruct (missing_labels df names) as [|m ms] eqn:Hm.
  { by apply elem_of_nil in Hin. }
  exists (m :: ms). split; [done|]. split; [done|].
  intros m' Hm'. apply missing_labels_elem. by rewrite Hm.
Qed.

Lemma frame_drop_ok df names :
  (∀ n, n ∈ names → is_Some (columns df !! n)) →
  frame_drop df names = Ok (mkDataFrame (index df) (foldr delete (columns df) names)).
Proof.
  intros H. unfold frame_drop. by apply missing_labels_nil in H as ->.
Qed.

Lemma lookup_select {V} (m : gmap string V) (names : list string) n :
  filter (λ kv : string * V, kv.1 ∈ names) m !! n =
    if decide (n ∈ names) then m !! n else None.
Proof.
  rewrite map_lookup_filter.
  destruct (decide (n ∈ names)), (m !! n) as [v|]; simpl; try done.
  - by rewrite option_guard_True.
  - by rewrite option_guard_False.
Qed.

Lemma lookup_foldr_delete {V} (m : gmap string V) (names : list string) n :
  foldr delete m names !! n = if decide (n ∈ names) then None else m !! n.
Proof.
  induction names as [|x names IH]; cbn [foldr].
  { by rewrite decide_False by apply not_elem_of_nil. }
  destruct (decide (x = n)) as [->|Hne].
  - rewrite lookup_delete_eq. rewrite decide_True; [done|left].
  - rewrite lookup_delete_ne by done. rewrite IH.
    destruct (decide (n ∈ names)).
    + rewrite decide_True; [done|by right].
    + rewrite decide_False; [done|]. intros [?|?]%elem_of_cons; congruence.
Qed.

(* --------------------------------------------------------------------- *)
(* The aggregates                                                         *)
(* --------------------------------------------------------------------- *)

Lemma groupby_mean_ok df key vars keys :
  columns df !! key = Some (Int64 keys) →
  (∀ v, v ∈ vars → is_Some (columns df !! v)) →
  groupby_mean df key vars = Ok (aggregate df key keys vars).
Proof.
  intros Hkey Hvars. unfold groupby_mean.
  rewrite getitem_list_ok.
  2:{ intros n [->|Hn]%elem_of_cons; [by rewrite Hkey|by apply Hvars]. }
  unfold rbind at 1. unfold getitem. simpl.
  rewrite lookup_select, decide_True by left. rewrite Hkey. done.
Qed.

Lemma aggregate_lookup df key keys vars v :
  v ∈ vars → v ≠ key →
  columns (aggregate df key keys vars) !! v =
    (λ s, Float64 (segment_means keys s)) <$> columns df !! v.
Proof.
  intros Hv Hne. unfold aggregate. simpl.
  rewrite lookup_fmap, lookup_delete_ne by done.
  rewrite lookup_select, decide_True by by right.
  by destruct (columns df !! v).
Qed.

Lemma filter_ext_elem {A} (P1 P2 : A → Prop)
    `{!∀ x, Decision (P1 x), !∀ x, Decision (P2 x)} (l : list A) :
  (∀ x, x ∈ l → P1 x ↔ P2 x) → filter P1 l = filter P2 l.
Proof.
  induction l as [|a l IH]; intros Hext; [done|].
  rewrite !filter_cons, IH by (intros x Hx; apply Hext; by right).
  assert (P1 a ↔ P2 a) as Ha by (apply Hext; left).
  destruct (decide (P1 a)), (decide (P2 a)); tauto || done.
Qed.

Lemma missing_labels_ext df1 df2 names :
  (∀ n, n ∈ names → columns df1 !! n = columns df2 !! n) →
  missing_labels df1 names = missing_labels df2 names.
Proof.
  intros H. unfold missing_labels. apply filter_ext_elem.
  intros n Hn. by rewrite (H n Hn).
Qed.

(* --------------------------------------------------------------------- *)
(* The p-value of one variable in one iteration                           *)
(* --------------------------------------------------------------------- *)

Lemma mask_select_length {B} (xs ys : list float) (idx : list B) :
  length xs = length idx → length ys = length idx →
  length (mask_select (zip_with float_gt (float_abs <$> xs) (float_abs <$> ys)) idx)
    = matched_exceed_count xs ys.
Proof.
  unfold mask_select, matched_exceed_count. rewrite length_fmap.
  revert xs ys. induction idx as [|i idx IH]; intros [|x xs] [|y ys] Hx Hy;
    simplify_eq/=; [done|].
  rewrite !filter_cons. cbn [fst snd]. specialize (IH xs ys Hx Hy).
  destruct (float_gt (float_abs x) (float_abs y)).
  - rewrite !decide_True by done. simpl. by rewrite IH.
  - rewrite !decide_False by done. done.
Qed.

Lemma matched_exceed_count_le xs ys : (matched_exceed_count xs ys ≤ length xs)%nat.
Proof.
  unfold matched_exceed_count.
  etrans; [apply length_filter|]. rewrite length_zip. lia.
Qed.

Lemma p_value_matched synth aggs col xs ys :
  columns synth !! col = Some (Float64 xs) →
  columns aggs !! col = Some (Float64 ys) →
  index synth = index aggs →
  length xs = nrows synth →
  length ys = nrows synth →
  p_value synth aggs col =
    py_truediv (matched_exceed_count xs ys) (nrows synth).
Proof.
  intros Hs Ha Hidx Hx Hy. unfold p_value, getitem, frame_abs. simpl.
  rewrite !lookup_fmap, Hs, Ha. simpl.
  unfold series_gt. rewrite decide_True by done. simpl.
  unfold nrows at 1. simpl. by rewrite mask_select_length.
Qed.

Lemma py_truediv_unit a b :
  (a ≤ b)%nat → b ≠ 0%nat →
  ∃ q, py_truediv a b = Ok (Fin q) ∧ q = (Z.of_nat a # Pos.of_nat b) ∧
       (0 <= q <= 1)%Q.
Proof.
  intros Hab Hb. destruct b as [|b]; [done|]. eexists. split; [done|].
  split; [done|]. unfold Qle. cbn [Qnum Qden]. rewrite <- Pos.of_nat_succ. lia.
Qed.

Lemma Qsum_unit (qs : list Q) :
  Forall (λ q, 0 <= q <= 1)%Q qs →
  (0 <= Qsum qs <= inject_Z (Z.of_nat (length qs)))%Q.
Proof.
  induction 1 as [|q qs [Hq0 Hq1] _ [IH0 IH1]].
  { split; apply Qle_refl. }
  unfold Qsum in *. cbn [foldr length]. split.
  - replace 0%Q with (0 + 0)%Q by done. by apply Qplus_le_compat.
  - rewrite Nat2Z.inj_succ, <- Z.add_1_l, inject_Z_plus.
    by apply Qplus_le_compat.
Qed.

(* the mean of values of the unit interval lies in the unit interval *)
Lemma mean_unit (xs : list float) :
  xs ≠ [] → Forall unit_interval xs → unit_interval (mean xs).
Proof.
  intros Hne Hall. unfold mean.
  assert (Forall (λ q, 0 <= q <= 1)%Q (finite_values xs) ∧
          length (finite_values xs) = length xs) as [Hq Hlen].
  { clear Hne. unfold finite_values.
    induction Hall as [|[q|] xs Hx _ [IH1 IH2]]; csimpl; [done| |done].
    split; [by constructor|]. simpl. by f_equal. }
  destruct (finite_values xs) as [|q qs] eqn:Hf.
  { destruct xs; [done|]. simpl in Hlen. lia. }
  apply Qsum_unit in Hq as [H0 H1].
  assert (0 < inject_Z (Z.of_nat (length (q :: qs))))%Q as Hpos.
  { unfold Qlt. simpl. lia. }
  simpl. split.
  - apply Qle_shift_div_l; [done|]. by rewrite Qmult_0_l.
  - apply Qle_shift_div_r; [done|]. by rewrite Qmult_1_l.
Qed.

(* --------------------------------------------------------------------- *)
(* average_pvals                                                          *)
(* --------------------------------------------------------------------- *)

Lemma p_name_elem c c' N j :
  c ∈ tracked → c' ∈ tracked →
  p_name c j ∈ p_name c' <$> range N ↔ c = c' ∧ (0 ≤ j < Z.of_nat N).
Proof.
  intros Hc Hc'. rewrite list_elem_of_fmap. split.
  - intros (i & Heq & [r Hr]%list_elem_of_lookup).
    apply p_name_inj in Heq as [-> ->]; [|done..].
    apply range_lookup in Hr as [-> ?]. split; [done|lia].
  - intros [-> Hj]. exists j. split; [done|].
    apply list_elem_of_lookup. exists (Z.to_nat j). unfold range.
    rewrite list_lookup_fmap, lookup_seq_lt by lia. simpl. f_equal. lia.
Qed.

Lemma collapse_lookup_p N df c j :
  c ∈ tracked → (0 ≤ j < Z.of_nat N) → columns (collapse N df c) !! p_name c j = None.
Proof.
  intros Hc Hj. unfold collapse. simpl.
  rewrite lookup_foldr_delete, decide_True; [done|]. by apply p_name_elem.
Qed.

Lemma collapse_lookup_avg N df c :
  c ∈ tracked → columns (collapse N df c) !! avg_name c = Some (averaged df c N).
Proof.
  intros Hc. unfold collapse. simpl.
  rewrite lookup_foldr_delete, decide_False, lookup_insert_eq; [done|].
  intros (j & Heq & _)%list_elem_of_fmap. by eapply p_name_not_avg.
Qed.

Lemma collapse_lookup_other N df c n :
  n ≠ avg_name c → n ∉ p_name c <$> range N →
  columns (collapse N df c) !! n = columns df !! n.
Proof.
  intros Havg Hp. unfold collapse. simpl.
  by rewrite lookup_foldr_delete, decide_False, lookup_insert_ne.
Qed.

(* the columns of one variable are not touched by the turn of another *)
Lemma collapse_p_columns N df c c' :
  c ∈ tracked → c' ∈ tracked → c ≠ c' →
  p_columns (collapse N df c) c' N = p_columns df c' N.
Proof.
  intros Hc Hc' Hne. unfold p_columns. apply list_omap_ext, Forall2_same_length_lookup.
  split; [done|]. intros i n n' Hn Hn'. simplify_eq.
  apply list_lookup_fmap_Some in Hn as (j & -> & Hj).
  rewrite collapse_lookup_other; [done|..].
  - by apply p_name_not_avg.
  - rewrite p_name_elem by done. by intros [? _].
Qed.

Lemma collapse_averaged N df c c' :
  c ∈ tracked → c' ∈ tracked → c ≠ c' →
  averaged (collapse N df c) c' N = averaged df c' N.
Proof.
  intros. unfold averaged. by rewrite collapse_p_columns.
Qed.

Section average.
Context {G : Generator}.
Implicit Types (w : World) (df : DataFrame).

Lemma set_heap_id w : set_heap w (heap w) = w.
Proof. by destruct w. Qed.

Lemma average_pvals_body_ok w l df c N :
  c ∈ tracked →
  heap w !! l = Some df →
  (∀ j, 0 ≤ j < Z.of_nat N → is_Some (columns df !! p_name c j)) →
  average_pvals_body l N c w =
    (Ok (), set_heap w (<[l := collapse N df c]> (heap w))).
Proof.
  intros Hc Hdf Hcols.
  assert (∀ n, n ∈ p_name c <$> range N → is_Some (columns df !! n)) as Hall.
  { intros n (j & -> & [r Hr]%list_elem_of_lookup)%list_elem_of_fmap.
    apply range_lookup in Hr as [-> ?]. apply Hcols. lia. }
  unfold average_pvals_body.
  rewrite (bind_ok _ _ _ _ _ (deref_ok _ _ _ Hdf)).
  rewrite (bind_ok _ _ _ _ _ (lift_ok _ _ _ (getitem_list_ok _ _ Hall))).
  unfold mbind, Py_bind, bind, store, deref, lift. simpl.
  assert (l < length (heap w))%nat as Hl by by eapply lookup_lt_Some.
  rewrite list_lookup_total_insert_eq by done.
  rewrite frame_drop_ok.
  2:{ intros n Hn. simpl. rewrite lookup_insert_ne; [by apply Hall|].
      apply list_elem_of_fmap in Hn as (j & -> & _). intros H.
      by apply (p_name_not_avg c c j). }
  simpl. rewrite list_insert_insert_eq. unfold set_heap. do 3 f_equal.
  unfold collapse, averaged, p_columns, nrows. simpl. do 4 f_equal.
  f_equal. apply list_omap_ext, Forall2_same_length_lookup. split; [done|].
  intros i n n' Hn Hn'. simplify_eq.
  rewrite lookup_select, decide_True; [done|]. by eapply list_elem_of_lookup_2.
Qed.

Lemma average_pvals_body_raise w l df c N j :
  heap w !! l = Some df →
  (0 ≤ j < Z.of_nat N) → columns df !! p_name c j = None →
  ∃ ms, average_pvals_body l N c w = (Raise (KeyError ms), w) ∧
        p_name c j ∈ ms ∧
        ∀ m, m ∈ ms → columns df !! m = None ∧ m ∈ p_name c <$> range N.
Proof.
  intros Hdf Hj Hnone.
  destruct (getitem_list_raise df (p_name c <$> range N) (p_name c j))
    as (ms & Hraise & Hin & Hms); [|done|].
  { apply list_elem_of_fmap. exists j. split; [done|].
    apply list_elem_of_lookup. exists (Z.to_nat j). unfold range.
    rewrite list_lookup_fmap, lookup_seq_lt by lia. simpl. f_equal. lia. }
  exists ms. split; [|done]. unfold average_pvals_body.
  rewrite (bind_ok _ _ _ _ _ (deref_ok _ _ _ Hdf)).
  by rewrite (bind_raise _ _ _ _ _ (lift_raise _ _ _ Hraise)).
Qed.

End average.

(* --------------------------------------------------------------------- *)
(* The loop of average_pvals                                              *)
(* --------------------------------------------------------------------- *)

Lemma tracked_NoDup : NoDup tracked.
Proof. compute_done. Qed.

Lemma collapsed_index N df vs : index (foldl (collapse N) df vs) = index df.
Proof. revert df. induction vs as [|v vs IH]; intros df; [done|]. simpl. by rewrite IH. Qed.

Lemma collapsed_lookup_other N df vs n :
  (∀ v, v ∈ vs → n ≠ avg_name v ∧ n ∉ p_name v <$> range N) →
  columns (foldl (collapse N) df vs) !! n = columns df !! n.
Proof.
  revert df. induction vs as [|v vs IH]; intros df H; [done|]. simpl.
  rewrite IH by (intros v' Hv'; apply H; by right).
  destruct (H v) as [? ?]; [left|]. by apply collapse_lookup_other.
Qed.

Lemma collapsed_lookup_p N df vs v j :
  vs ⊆ tracked → NoDup vs → v ∈ vs → 0 ≤ j < Z.of_nat N →
  columns (foldl (collapse N) df vs) !! p_name v j = None.
Proof.
  revert df. induction vs as [|v' vs IH]; intros df Hsub Hnd Hv Hj.
  { by apply elem_of_nil in Hv. }
  apply NoDup_cons in Hnd as [Hv' Hnd].
  assert (v' ∈ tracked) by (apply Hsub; left).
  assert (vs ⊆ tracked) by (intros x Hx; apply Hsub; by right).
  simpl. apply elem_of_cons in Hv as [->|Hv]; [|by apply IH].
  rewrite collapsed_lookup_other; [by apply collapse_lookup_p|].
  intros u Hu. split; [by apply p_name_not_avg; auto|].
  rewrite p_name_elem by auto. intros [-> _]. done.
Qed.

Lemma collapsed_lookup_avg N df vs v :
  vs ⊆ tracked → NoDup vs → v ∈ vs →
  columns (foldl (collapse N) df vs) !! avg_name v = Some (averaged df v N).
Proof.
  revert df. induction vs as [|v' vs IH]; intros df Hsub Hnd Hv.
  { by apply elem_of_nil in Hv. }
  apply NoDup_cons in Hnd as [Hv' Hnd].
  assert (v' ∈ tracked) by (apply Hsub; left).
  assert (vs ⊆ tracked) as Hsub' by (intros x Hx; apply Hsub; by right).
  simpl. apply elem_of_cons in Hv as [->|Hv].
  - rewrite collapsed_lookup_other; [by apply collapse_lookup_avg|].
    intros u Hu. split.
    + intros Heq. apply avg_name_inj in Heq; auto. by subst.
    + intros (j & Heq & _)%list_elem_of_fmap. symmetry in Heq.
      by apply p_name_not_avg in Heq; auto.
  - rewrite IH by done. f_equal. apply collapse_averaged; auto.
    by intros ->.
Qed.

Section average_loop.
Context {G : Generator}.
Implicit Types (w : World) (df : DataFrame).

Lemma complete_collapsed N T vs v :
  vs ⊆ tracked → v ∈ tracked → v ∉ vs →
  complete N (foldl (collapse N) T vs) v ↔ complete N T v.
Proof.
  intros Hsub Hv Hnot. unfold complete.
  assert (∀ j, columns (foldl (collapse N) T vs) !! p_name v j
               = columns T !! p_name v j) as Heq; [|by setoid_rewrite Heq].
  intros j. apply collapsed_lookup_other. intros u Hu. split.
  - apply p_name_not_avg; auto.
  - rewrite p_name_elem by auto. intros [-> _]. done.
Qed.

Lemma tracked_take_not_elem i v : tracked !! i = Some v → v ∉ take i tracked.
Proof.
  intros Hi (j & Hj & Hlt)%elem_of_take.
  pose proof (NoDup_lookup _ _ _ _ tracked_NoDup Hi Hj). lia.
Qed.

Lemma take_subseteq {A} (n : nat) (l : list A) : take n l ⊆ l.
Proof. intros x (j & Hj & _)%elem_of_take. by eapply list_elem_of_lookup_2. Qed.

Lemma averaging_step w l T N i v w1 :
  heap w !! l = Some T →
  tracked !! i = Some v → averaging w l T N i w1 → complete N T v →
  ∃ w2, average_pvals_body l N v w1 = (Ok (), w2) ∧ averaging w l T N (S i) w2.
Proof.
  intros HT Hv [-> Hdone] Hc.
  assert (l < length (heap w))%nat as Hl by by eapply lookup_lt_Some.
  assert (v ∈ tracked) as Hin by by eapply list_elem_of_lookup_2.
  eexists. split.
  - apply average_pvals_body_ok; [done| |].
    + simpl. by apply list_lookup_insert_eq.
    + apply complete_collapsed; [apply take_subseteq|done| |done].
      by apply tracked_take_not_elem.
  - split.
    + rewrite (take_S_r _ _ _ Hv), foldl_app. unfold set_heap.
      cbn [heap py_random np_random foldl]. by rewrite list_insert_insert_eq.
    + intros u. rewrite (take_S_r _ _ _ Hv).
      intros [?|Hu]%elem_of_app; [by auto|].
      apply list_elem_of_singleton in Hu. by subst.
Qed.

Lemma average_pvals_ok w l T N :
  heap w !! l = Some T →
  (∀ v, v ∈ tracked → complete N T v) →
  average_pvals l N w =
    (Ok l, set_heap w (<[l := foldl (collapse N) T tracked]> (heap w))).
Proof.
  intros HT Hall. unfold average_pvals.
  destruct (for_invariant (averaging w l T N) tracked
              (average_pvals_body l N) w) as (w' & Hrun & [-> _]).
  - split; [|by intros v ?%elem_of_nil]. simpl.
    by rewrite list_insert_id, set_heap_id.
  - intros i v w1 Hv HI. eapply averaging_step; eauto.
    apply Hall. by eapply list_elem_of_lookup_2.
  - rewrite (bind_ok _ _ _ _ _ Hrun). by rewrite firstn_all.
Qed.

End average_loop.

(* --------------------------------------------------------------------- *)
(* Rows                                                                   *)
(* --------------------------------------------------------------------- *)

Lemma row_means_lookup n cols r :
  (r < n)%nat → row_means n cols !! r = Some (mean (omap (λ c, c !! r) cols)).
Proof.
  intros Hr. unfold row_means. by rewrite list_lookup_fmap, lookup_seq_lt.
Qed.

Lemma p_columns_row T v (js : list Z) r (xs : list float) :
  Forall2 (λ j x, cell T (p_name v j) r = Some x) js xs →
  omap (λ c, c !! r) (omap (λ n, astype_float <$> columns T !! n) (p_name v <$> js))
    = xs.
Proof.
  induction 1 as [|j x js xs Hx _ IH]; [done|]. csimpl.
  unfold cell in Hx. destruct (columns T !! p_name v j) as [s|]; simplify_eq/=.
  rewrite Hx. simpl. by f_equal.
Qed.

Lemma mean_finite (qs : list Q) :
  qs ≠ [] →
  mean (Fin <$> qs) = Fin (Qsum qs / inject_Z (Z.of_nat (length qs))).
Proof.
  intros Hne. unfold mean.
  assert (finite_values (Fin <$> qs) = qs) as ->.
  { unfold finite_values. induction qs as [|q qs IH]; [done|]. csimpl.
    destruct qs; [done|]. by rewrite IH. }
  by destruct qs.
Qed.

Section average_claims.
Context {G : Generator}.
Implicit Types (w : World) (df : DataFrame).

(* what average_pvals does to a table that has all the columns *)
Lemma average_pvals_spec w pval_df T N :
  heap w !! pval_df = Some T →
  (∀ v, v ∈ tracked → complete N T v) →
  ∃ w' T',
    average_pvals pval_df N w = (Ok pval_df, w') ∧
    heap w' !! pval_df = Some T' ∧
    index T' = index T ∧
    (∀ v, v ∈ tracked →
       columns T' !! avg_name v =
         Some (Float64 (row_means (nrows T) (p_columns T v N)))) ∧
    (∀ v r qs, v ∈ tracked → (r < nrows T)%nat → qs ≠ [] →
       Forall2 (λ j q, cell T (p_name v j) r = Some (Fin q)) (range N) qs →
       cell T' (avg_name v) r =
         Some (Fin (Qsum qs / inject_Z (Z.of_nat N)))) ∧
    (∀ v j, v ∈ tracked → 0 ≤ j < Z.of_nat N →
       columns T' !! p_name v j = None) ∧
    (∀ n, (∀ v, v ∈ tracked → n ≠ avg_name v ∧ n ∉ p_name v <$> range N) →
       columns T' !! n = columns T !! n).
Proof.
  intros HT Hall. rewrite (average_pvals_ok w pval_df T N) by done.
  assert (pval_df < length (heap w))%nat as Hl by by eapply lookup_lt_Some.
  eexists _, _. split; [done|]. split; [by apply list_lookup_insert_eq|].
  split; [apply collapsed_index|].
  assert (∀ v, v ∈ tracked →
            columns (foldl (collapse N) T tracked) !! avg_name v =
            Some (Float64 (row_means (nrows T) (p_columns T v N)))) as Havg.
  { intros v Hv. by apply collapsed_lookup_avg; [|apply tracked_NoDup|]. }
  split; [done|]. split; [|split].
  - intros v r qs Hv Hr Hne Hqs. unfold cell. rewrite (Havg v Hv). simpl.
    rewrite row_means_lookup by done. do 2 f_equal.
    unfold p_columns. rewrite (p_columns_row T v (range N) r (Fin <$> qs)).
    + rewrite mean_finite by done. do 4 f_equal.
      rewrite <- (Forall2_length _ _ _ Hqs). apply range_length.
    + by apply Forall2_fmap_r.
  - intros v j Hv Hj. by apply collapsed_lookup_p; [|apply tracked_NoDup|..].
  - intros n Hn. by apply collapsed_lookup_other.
Qed.

Lemma averaging_raise w l T N i v j w1 :
  heap w !! l = Some T →
  tracked !! i = Some v → averaging w l T N i w1 →
  0 ≤ j < Z.of_nat N → columns T !! p_name v j = None →
  ∃ ms, average_pvals_body l N v w1 = (Raise (KeyError ms), w1) ∧
        ms ≠ [] ∧
        ∀ m, m ∈ ms → columns T !! m = None ∧
                      ∃ v' j', v' ∈ tracked ∧ 0 ≤ j' < Z.of_nat N ∧ m = p_name v' j'.
Proof.
  intros HT Hv [-> Hdone] Hj Hnone.
  assert (l < length (heap w))%nat as Hl by by eapply lookup_lt_Some.
  assert (v ∈ tracked) as Hin by by eapply list_elem_of_lookup_2.
  assert (∀ j, columns (foldl (collapse N) T (take i tracked)) !! p_name v j
               = columns T !! p_name v j) as Heq.
  { intros j'. apply collapsed_lookup_other. intros u Hu.
    assert (u ∈ tracked) by by eapply take_subseteq.
    split; [by apply p_name_not_avg|].
    rewrite p_name_elem by done. intros [-> _].
    by eapply tracked_take_not_elem. }
  destruct (average_pvals_body_raise
              (set_heap w (<[l := foldl (collapse N) T (take i tracked)]> (heap w)))
              l (foldl (collapse N) T (take i tracked)) v N j)
    as (ms & Hrun & Hm & Hms).
  { simpl. by apply list_lookup_insert_eq. }
  { done. }
  { by rewrite Heq. }
  exists ms. split; [done|]. split.
  { intros ->. by apply elem_of_nil in Hm. }
  intros m [Hmnone Hmin]%Hms.
  apply list_elem_of_fmap in Hmin as (j' & -> & [r Hr]%list_elem_of_lookup).
  apply range_lookup in Hr as [-> ?]. rewrite Heq in Hmnone.
  split; [done|]. exists v, (Z.of_nat r). split; [done|]. split; [lia|done].
Qed.

(** C8 (amended): when a per-iteration p-value column that the
    iteration count calls for is absent, average_pvals raises a KeyError
    that names absent columns of that kind.  The failure is not atomic:
    the table is left with the variables in front of the first
    incomplete one aggregated in place, each over its N columns (its
    averaged column written, its N columns removed); the first
    incomplete variable and those behind it are as they were, and no
    mean is taken over a subset of a variable's columns. *)
Theorem average_pvals_missing_column w pval_df T N v j :
  heap w !! pval_df = Some T →
  v ∈ tracked → 0 ≤ j < Z.of_nat N →
  columns T !! p_name v j = None →
  ∃ ms w' k,
    average_pvals pval_df N w = (Raise (KeyError ms), w') ∧
    ms ≠ [] ∧
    (∀ m, m ∈ ms → columns T !! m = None ∧
        ∃ v' j', v' ∈ tracked ∧ 0 ≤ j' < Z.of_nat N ∧ m = p_name v' j') ∧
    heap w' !! pval_df = Some (foldl (collapse N) T (take k tracked)) ∧
    (∀ u, u ∈ take k tracked → complete N T u) ∧
    (∃ u, tracked !! k = Some u ∧ ¬ complete N T u).
Proof.
  intros HT Hv Hj Hnone.
  assert (pval_df < length (heap w))%nat as Hl by by eapply lookup_lt_Some.
  apply list_elem_of_lookup in Hv as [n Hn].
  set (E := λ (e : Exception) (w2 : World),
         ∃ ms k, e = KeyError ms ∧ ms ≠ [] ∧
           (∀ m, m ∈ ms → columns T !! m = None ∧
              ∃ v' j', v' ∈ tracked ∧ 0 ≤ j' < Z.of_nat N ∧ m = p_name v' j') ∧
           averaging w pval_df T N k w2 ∧
           ∃ u, tracked !! k = Some u ∧ ¬ complete N T u).
  destruct (for_raise (averaging w pval_df T N) E tracked
              (average_pvals_body pval_df N) w n v)
    as (e & w' & Hrun & (ms & k & -> & Hne & Hms & [-> Hk] & Hfirst)).
  - split; [|by intros u ?%elem_of_nil]. simpl.
    by rewrite list_insert_id, set_heap_id.
  - done.
  - intros i y w1 Hi Hy HI.
    destruct (missing_labels T (p_name y <$> range N)) as [|m ms] eqn:Hmiss.
    + left. eapply averaging_step; eauto.
      intros j' Hj'. apply (proj1 (missing_labels_nil _ _) Hmiss).
      apply p_name_elem; [by eapply list_elem_of_lookup_2..|done].
    + right. assert (m ∈ missing_labels T (p_name y <$> range N)) as Hm
        by (rewrite Hmiss; left).
      apply missing_labels_elem in Hm as [Hmnone Hmin].
      apply list_elem_of_fmap in Hmin as (j' & -> & [r Hr]%list_elem_of_lookup).
      apply range_lookup in Hr as [-> ?].
      destruct (averaging_raise w pval_df T N i y (Z.of_nat r) w1)
        as (ms' & Hrun & Hne & Hms'); [done..|lia|done|].
      exists (KeyError ms'), w1. split; [done|]. exists ms', i.
      do 4 (split; [done|]). exists y. split; [done|].
      intros Hc. destruct (Hc (Z.of_nat r)) as [s Hs]; [lia|]. congruence.
  - intros w1 HI.
    destruct (averaging_raise w pval_df T N n v j w1)
      as (ms' & Hrun & Hne & Hms'); [done..|].
    exists (KeyError ms'), w1. split; [done|]. exists ms', n.
    do 4 (split; [done|]). exists v. split; [done|].
    intros Hc. destruct (Hc j) as [s Hs]; [done|]. congruence.
  - exists ms. eexists. exists k. unfold average_pvals.
    rewrite (bind_raise _ _ _ _ _ Hrun). split; [done|]. split; [done|].
    split; [done|]. split; [|done]. simpl. by apply list_lookup_insert_eq.
Qed.

End average_claims.

(* --------------------------------------------------------------------- *)
(* The loop over the variables in one iteration                           *)
(* --------------------------------------------------------------------- *)

Lemma recorded_index i pv a vs : index (recorded i pv a vs) = index a.
Proof.
  revert a. induction vs as [|c vs IH]; intros a; [done|].
  unfold recorded in *. simpl. by rewrite IH.
Qed.

Lemma recorded_lookup_other i pv a vs n :
  (∀ c, c ∈ vs → n ≠ p_name c i) →
  columns (recorded i pv a vs) !! n = columns a !! n.
Proof.
  revert a. induction vs as [|c vs IH]; intros a H; [done|].
  unfold recorded in *. simpl. rewrite IH by (intros c' ?; apply H; by right).
  simpl. rewrite lookup_insert_ne; [done|]. intros Heq. by apply (H c); [left|].
Qed.

Lemma recorded_lookup_p i pv a vs c :
  vs ⊆ tracked → NoDup vs → c ∈ vs →
  columns (recorded i pv a vs) !! p_name c i =
    Some (Float64 (replicate (nrows a) (pv c))).
Proof.
  revert a. induction vs as [|c' vs IH]; intros a Hsub Hnd Hc.
  { by apply elem_of_nil in Hc. }
  apply NoDup_cons in Hnd as [Hc' Hnd].
  assert (c' ∈ tracked) by (apply Hsub; left).
  assert (vs ⊆ tracked) as Hsub' by (intros x Hx; apply Hsub; by right).
  unfold recorded in *. simpl. apply elem_of_cons in Hc as [->|Hc].
  - fold (recorded i pv (setitem_scalar a (p_name c' i) (pv c')) vs).
    rewrite recorded_lookup_other.
    + simpl. by rewrite lookup_insert_eq.
    + intros u Hu Heq. apply p_name_inj in Heq as [-> _]; auto.
  - by rewrite IH.
Qed.

Lemma p_value_ext synth a a' col :
  index a = index a' → columns a !! col = columns a' !! col →
  p_value synth a col = p_value synth a' col.
Proof.
  intros Hi Hc. unfold p_value, getitem, frame_abs. simpl.
  by rewrite !lookup_fmap, Hi, Hc.
Qed.

Section variables_loop.
Context {G : Generator}.
Implicit Types (w : World) (df : DataFrame).

Lemma p_value_body_ok w aggs synth a i c p :
  heap w !! aggs = Some a →
  p_value synth a c = Ok p →
  p_value_body aggs synth i c w =
    (Ok (), set_heap w (<[aggs := setitem_scalar a (p_name c i) p]> (heap w))).
Proof.
  intros Ha Hp. unfold p_value_body.
  rewrite (bind_ok _ _ _ _ _ (deref_ok _ _ _ Ha)).
  by rewrite (bind_ok _ _ _ _ _ (lift_ok _ _ _ Hp)).
Qed.

Lemma p_value_body_raise w aggs synth a i c e :
  heap w !! aggs = Some a →
  p_value synth a c = Raise e →
  p_value_body aggs synth i c w = (Raise e, w).
Proof.
  intros Ha Hp. unfold p_value_body.
  rewrite (bind_ok _ _ _ _ _ (deref_ok _ _ _ Ha)).
  by rewrite (bind_raise _ _ _ _ _ (lift_raise _ _ _ Hp)).
Qed.

Lemma variables_loop_ok w aggs synth a i pv :
  heap w !! aggs = Some a →
  (∀ c, c ∈ tracked → p_value synth a c = Ok (pv c)) →
  for_ tracked (p_value_body aggs synth i) w =
    (Ok (), set_heap w (<[aggs := recorded i pv a tracked]> (heap w))).
Proof.
  intros Ha Hpv.
  assert (aggs < length (heap w))%nat as Hl by by eapply lookup_lt_Some.
  destruct (for_invariant
    (λ k w1, w1 = set_heap w (<[aggs := recorded i pv a (take k tracked)]> (heap w)))
    tracked (p_value_body aggs synth i) w) as (w' & Hrun & ->).
  - simpl. unfold recorded. simpl. by rewrite list_insert_id, set_heap_id.
  - intros k c w1 Hc ->.
    assert (c ∈ tracked) as Hin by by eapply list_elem_of_lookup_2.
    eexists. split.
    + apply p_value_body_ok; [simpl; by apply list_lookup_insert_eq|].
      rewrite <- (Hpv c Hin). apply p_value_ext; [apply recorded_index|].
      apply recorded_lookup_other. intros u Hu Heq.
      by apply (p_name_not_tracked u i); [eapply take_subseteq|rewrite <- Heq].
    + rewrite (take_S_r _ _ _ Hc). unfold recorded, set_heap.
      rewrite foldl_app. cbn [heap py_random np_random foldl].
      by rewrite list_insert_insert_eq.
  - rewrite Hrun. by rewrite firstn_all.
Qed.

End variables_loop.

(* --------------------------------------------------------------------- *)
(* One iteration of find_p_vals                                           *)
(* --------------------------------------------------------------------- *)

Lemma py_truediv_ok a b :
  b ≠ 0%nat → py_truediv a b = Ok (Fin (Z.of_nat a # Pos.of_nat b)).
Proof. by destruct b. Qed.

Lemma segment_means_length keys s :
  length (segment_means keys s) = length (unique_sorted keys).
Proof. unfold segment_means. by rewrite length_fmap. Qed.

Lemma households_lengths df blk tl :
  households df blk tl → length blk = nrows df ∧ length tl = nrows df.
Proof.
  intros (Hwf & Hblk & Htl & _).
  split; [apply (wf_frame_lookup _ _ _ Hwf Hblk)|apply (wf_frame_lookup _ _ _ Hwf Htl)].
Qed.

Section iteration.
Context {G : Generator}.
Implicit Types (w : World) (df : DataFrame).
Local Arguments for_ : simpl never.
Local Arguments recorded : simpl never.

Lemma iteration_body_ok w data aggs i dfi T blk tl :
  data ≠ aggs →
  heap w !! data = Some dfi →
  heap w !! aggs = Some T →
  columns dfi !! "BLKID" = Some (Int64 blk) →
  columns dfi !! "TLID" = Some (Int64 tl) →
  length blk = length tl → tl ≠ [] →
  index T = unique_sorted tl →
  (∀ c, c ∈ tracked → ∃ s, columns dfi !! c = Some s ∧
                            columns T !! c = Some (Float64 (segment_means tl s))) →
  ∃ permuted g',
    iteration_body data aggs i w =
      (Ok (), mkWorld i g'
         (<[aggs := recorded i (p_of dfi permuted tl) T tracked]>
            (<[data := setitem dfi (permuted_name i) (Int64 permuted)]> (heap w)))) ∧
    length permuted = length blk ∧
    (∀ b, group_values blk permuted b ≡ₚ group_values blk tl b) ∧
    (∀ x, x ∈ permuted ↔ x ∈ tl).
Proof.
  intros Hne Hdata Haggs Hblk Htl Hlen Hnil HidxT Hvars.
  assert (data < length (heap w))%nat as Hld by by eapply lookup_lt_Some.
  assert (aggs < length (heap w))%nat as Hla by by eapply lookup_lt_Some.
  destruct (transform_permutation_group blk tl (np_random w) Hlen) as [Hl Hg].
  pose proof (λ x, transform_permutation_elem blk tl (np_random w) x Hlen) as Hel.
  unfold iteration_body.
  rewrite (bind_ok _ _ _ _ _
             (permute_houses_run w data i dfi blk (Int64 tl) Hdata Hblk Htl)).
  simpl. destruct (transform_permutation blk tl (np_random w)) as [permuted g'].
  simpl in *. exists permuted, g'. split; [|done].
  set (dfi' := setitem dfi (permuted_name i) (Int64 permuted)).
  set (w2 := mkWorld i g' (<[data := dfi']> (heap w))).
  assert (heap w2 !! data = Some dfi') as Hd2 by by apply list_lookup_insert_eq.
  assert (heap w2 !! aggs = Some T) as Ha2.
  { simpl. by rewrite list_lookup_insert_ne. }
  assert (∀ c, c ∈ tracked → columns dfi' !! c = columns dfi !! c) as Hsame.
  { intros c Hc. simpl. rewrite lookup_insert_ne; [done|]. intros <-.
    destruct (permuted_name_not_key i) as [Hk _]. apply Hk. by right. }
  rewrite (bind_ok _ _ _ _ _ (deref_ok _ _ _ Hd2)).
  assert (groupby_mean dfi' (permuted_name i) tracked =
          Ok (aggregate dfi' (permuted_name i) permuted tracked)) as Hsynth.
  { apply groupby_mean_ok; [simpl; apply lookup_insert_eq|].
    intros c Hc. rewrite Hsame by done. by destruct (Hvars c Hc) as (s & -> & _). }
  rewrite (bind_ok _ _ _ _ _ (lift_ok _ _ _ Hsynth)).
  rewrite (variables_loop_ok w2 aggs _ T i (p_of dfi permuted tl) Ha2); [done|].
  intros c Hc. destruct (Hvars c Hc) as (s & Hs & HTc).
  assert (unique_sorted permuted = unique_sorted tl) as Hus
    by by apply unique_sorted_ext.
  rewrite (p_value_matched _ T c (segment_means permuted s) (segment_means tl s)).
  - unfold p_of, p_scalar. rewrite Hs. simpl. unfold nrows. simpl.
    apply py_truediv_ok. rewrite Hus. intros H0%nil_length_inv.
    by apply unique_sorted_nil_inv in H0.
  - rewrite aggregate_lookup; [by rewrite Hsame, Hs|done|].
    intros ->. destruct (permuted_name_not_key i) as [Hk _]. apply Hk. by right.
  - done.
  - simpl. by rewrite HidxT.
  - by rewrite segment_means_length.
  - rewrite segment_means_length. unfold nrows. simpl. by rewrite Hus.
Qed.

End iteration.

(* --------------------------------------------------------------------- *)
(* The loop over the iterations                                           *)
(* --------------------------------------------------------------------- *)

Lemma aggregate_lookup_None df key keys vars n :
  n ∉ vars → columns (aggregate df key keys vars) !! n = None.
Proof.
  intros Hn. unfold aggregate. simpl. rewrite lookup_fmap.
  destruct (decide (key = n)) as [->|Hne]; [by rewrite lookup_delete_eq|].
  rewrite lookup_delete_ne by done. rewrite lookup_select, decide_False; [done|].
  intros [?|?]%elem_of_cons; congruence.
Qed.

Section iterations.
Context {G : Generator}.
Implicit Types (w : World) (df : DataFrame).
Local Arguments for_ : simpl never.
Local Arguments recorded : simpl never.

Lemma computing_step data aggs df0 blk tl h0 i w1 :
  data ≠ aggs → households df0 blk tl → tl ≠ [] →
  computing data aggs df0 blk tl h0 i w1 →
  ∃ w2, iteration_body data aggs (Z.of_nat i) w1 = (Ok (), w2) ∧
        computing data aggs df0 blk tl h0 (S i) w2.
Proof.
  intros Hne Hh Hnil
    (dfi & T & Hlen & Hframe & Hdata & Haggs & Hidx & Hcols & HidxT & HTcols & Hits).
  destruct (households_lengths _ _ _ Hh) as [Hlb Hlt].
  destruct Hh as (Hwf & Hblk & Htl & Hvars).
  assert (∀ n, n ∈ "BLKID" :: "TLID" :: tracked → columns dfi !! n = columns df0 !! n)
    as Hkeep.
  { intros n Hn. apply Hcols. intros j _ ->.
    destruct (permuted_name_not_key (Z.of_nat j)) as [H1 H2].
    apply elem_of_cons in Hn as [?|Hn]; [done|]. by apply H1. }
  assert (∀ c, c ∈ tracked → ∃ s, columns dfi !! c = Some s ∧
            columns T !! c = Some (Float64 (segment_means tl s))) as Hv.
  { intros c Hc. destruct (Hvars c Hc) as [s Hs]. exists s.
    rewrite Hkeep by (do 2 right; done). split; [done|].
    rewrite HTcols.
    - rewrite aggregate_lookup, Hs; [done..|]. intros ->. by apply tracked_not_key.
    - intros u j Hu _ ->. by apply (p_name_not_tracked u (Z.of_nat j)). }
  assert (data < length (heap w1))%nat as Hld by by eapply lookup_lt_Some.
  assert (aggs < length (heap w1))%nat as Hla by by eapply lookup_lt_Some.
  destruct (iteration_body_ok w1 data aggs (Z.of_nat i) dfi T blk tl)
    as (p & g' & Hrun & Hpl & Hpg & Hpe); try done.
  { rewrite Hkeep; [done|left]. }
  { rewrite Hkeep; [done|right; left]. }
  { congruence. }
  eexists. split; [exact Hrun|].
  exists (setitem dfi (permuted_name (Z.of_nat i)) (Int64 p)),
         (recorded (Z.of_nat i) (p_of dfi p tl) T tracked).
  cbn [heap]. split; [by rewrite !length_insert|].
  split. { intros l ??. rewrite !list_lookup_insert_ne by congruence. by apply Hframe. }
  split. { rewrite list_lookup_insert_ne by done. by apply list_lookup_insert_eq. }
  split. { apply list_lookup_insert_eq. by rewrite length_insert. }
  split; [done|].
  split. { intros n Hn. simpl. rewrite lookup_insert_ne.
           - apply Hcols. intros j ?. apply Hn. lia.
           - intros Heq. by apply (Hn i); [lia|]. }
  split; [by rewrite recorded_index|].
  split. { intros n Hn. rewrite recorded_lookup_other.
           - apply HTcols. intros c j ??. apply Hn; [done|lia].
           - intros c Hc. apply Hn; [done|lia]. }
  intros j Hj. destruct (decide (j = i)) as [->|Hji].
  - exists p. split; [simpl; apply lookup_insert_eq|]. do 3 (split; [done|]).
    intros c Hc. rewrite recorded_lookup_p; [|done|apply tracked_NoDup|done].
    unfold nrows. rewrite HidxT. do 3 f_equal.
    unfold p_of. by rewrite Hkeep by (do 2 right; done).
  - destruct (Hits j) as (pj & Hpj & ? & ? & ? & HTp); [lia|].
    exists pj. split.
    { simpl. rewrite lookup_insert_ne; [done|].
      intros Heq%permuted_name_inj. lia. }
    do 3 (split; [done|]). intros c Hc.
    rewrite recorded_lookup_other; [by apply HTp|].
    intros u Hu Heq. apply p_name_inj in Heq as [_ ?]; [lia|done..].
Qed.

Lemma compute_pvalues_ok w data df blk tl N :
  heap w !! data = Some df → households df blk tl → tl ≠ [] →
  ∃ w', compute_pvalues data N w = (Ok (length (heap w)), w') ∧
        computing data (length (heap w)) df blk tl
          (heap w ++ [aggregate df "TLID" tl tracked]) N w'.
Proof.
  intros Hdf Hh Hnil. pose proof Hh as (Hwf & Hblk & Htl & Hvars).
  assert (data < length (heap w))%nat as Hld by by eapply lookup_lt_Some.
  unfold compute_pvalues.
  rewrite (bind_ok _ _ _ _ _ (deref_ok _ _ _ Hdf)).
  rewrite (bind_ok _ _ _ _ _ (lift_ok _ _ _
             (groupby_mean_ok df "TLID" tracked tl Htl Hvars))).
  unfold alloc at 1. unfold mbind at 1, Py_bind at 1, bind at 1.
  set (aggs := length (heap w)).
  set (aggs0 := aggregate df "TLID" tl tracked).
  set (w0 := mkWorld (py_random w) (np_random w) (heap w ++ [aggs0])).
  destruct (for_invariant (computing data aggs df blk tl (heap w ++ [aggs0]))
              (range N) (iteration_body data aggs) w0) as (w' & Hrun & Hinv).
  - exists df, aggs0. simpl. split; [done|]. split; [done|].
    split; [by rewrite lookup_app_l|].
    split; [by rewrite lookup_app_r, Nat.sub_diag|].
    do 4 (split; [done|]). intros j ?. lia.
  - intros i x w1 [-> _]%range_lookup HI.
    apply computing_step; [unfold aggs; lia|done..].
  - exists w'. rewrite (bind_ok _ _ _ _ _ Hrun). split; [done|].
    by rewrite range_length in Hinv.
Qed.

End iterations.

(* --------------------------------------------------------------------- *)
(* What the loop leaves behind                                            *)
(* --------------------------------------------------------------------- *)

Lemma p_scalar_unit permuted tl s :
  unique_sorted permuted ≠ [] → unit_interval (p_scalar permuted tl s).
Proof.
  intros Hne. unfold p_scalar.
  destruct (py_truediv_unit
    (matched_exceed_count (segment_means permuted s) (segment_means tl s))
    (length (unique_sorted permuted))) as (q & _ & -> & Hq); [| |done].
  - etrans; [apply matched_exceed_count_le|]. by rewrite segment_means_length.
  - by intros ?%nil_length_inv.
Qed.

Section computed.
Context {G : Generator}.
Implicit Types (w : World) (df : DataFrame).

(* the facts the claims draw from the invariant *)
Lemma computing_facts data aggs df blk tl h0 N w' :
  households df blk tl →
  computing data aggs df blk tl h0 N w' →
  ∃ dfN T,
    heap w' !! data = Some dfN ∧
    heap w' !! aggs = Some T ∧
    index dfN = index df ∧
    (∀ n, (∀ j, (j < N)%nat → n ≠ permuted_name (Z.of_nat j)) →
          columns dfN !! n = columns df !! n) ∧
    index T = unique_sorted tl ∧
    (∀ n, n ∈ tracked → is_Some (columns T !! n)) ∧
    (∀ n, n ∉ tracked →
          (∀ c j, c ∈ tracked → (j < N)%nat → n ≠ p_name c (Z.of_nat j)) →
          columns T !! n = None) ∧
    (∀ i c, (i < N)%nat → c ∈ tracked →
       ∃ permuted s,
         columns dfN !! permuted_name (Z.of_nat i) = Some (Int64 permuted) ∧
         length permuted = length blk ∧
         (∀ b, group_values blk permuted b ≡ₚ group_values blk tl b) ∧
         columns df !! c = Some s ∧
         groupby_mean dfN (permuted_name (Z.of_nat i)) tracked =
           Ok (aggregate dfN (permuted_name (Z.of_nat i)) permuted tracked) ∧
         unique_sorted permuted = unique_sorted tl ∧
         columns (aggregate dfN (permuted_name (Z.of_nat i)) permuted tracked) !! c
           = Some (Float64 (segment_means permuted s)) ∧
         columns T !! c = Some (Float64 (segment_means tl s)) ∧
         columns T !! p_name c (Z.of_nat i) =
           Some (Float64 (replicate (nrows T) (p_scalar permuted tl s)))).
Proof.
  intros (Hwf & Hblk & Htl & Hvars)
    (dfN & T & Hlen & Hframe & Hdata & Haggs & Hidx & Hcols & HidxT & HTcols & Hits).
  exists dfN, T. do 5 (split; [done|]).
  assert (∀ c, c ∈ tracked → columns dfN !! c = columns df !! c) as Hkeep.
  { intros c Hc. apply Hcols. intros j _ ->.
    destruct (permuted_name_not_key (Z.of_nat j)) as [H1 _]. apply H1. by right. }
  assert (∀ c s, c ∈ tracked → columns df !! c = Some s →
            columns T !! c = Some (Float64 (segment_means tl s))) as HT.
  { intros c s Hc Hs. rewrite HTcols.
    - rewrite aggregate_lookup, Hs; [done..|]. intros ->. by apply tracked_not_key.
    - intros u j Hu _ ->. by apply (p_name_not_tracked u (Z.of_nat j)). }
  split. { intros n Hn. destruct (Hvars n Hn) as [s Hs]. by rewrite (HT n s). }
  split. { intros n Hn Hp. rewrite HTcols by done. by apply aggregate_lookup_None. }
  intros i c Hi Hc. destruct (Hits i Hi) as (pj & Hpj & Hpl & Hpg & Hpe & HTp).
  destruct (Hvars c Hc) as [s Hs]. exists pj, s.
  do 4 (split; [done|]).
  split. { apply groupby_mean_ok; [done|]. intros v Hv. rewrite Hkeep by done. auto. }
  split. { by apply unique_sorted_ext. }
  split. { rewrite aggregate_lookup, Hkeep, Hs; [done..|]. intros ->.
           destruct (permuted_name_not_key (Z.of_nat i)) as [H1 _]. apply H1. by right. }
  split; [by apply HT|].
  rewrite (HTp c Hc). unfold nrows, p_of. by rewrite HidxT, Hs.
Qed.

End computed.

(* --------------------------------------------------------------------- *)
(* The p-values of find_p_vals                                            *)
(* --------------------------------------------------------------------- *)

Lemma p_value_zero_rows synth aggs col s a :
  columns synth !! col = Some s →
  columns aggs !! col = Some a →
  index synth = index aggs →
  nrows synth = 0%nat →
  p_value synth aggs col = Raise ZeroDivisionError.
Proof.
  intros Hs Ha Hidx H0. unfold p_value, getitem, frame_abs. simpl.
  rewrite !lookup_fmap, Hs, Ha. simpl.
  unfold series_gt. rewrite decide_True by done. simpl. by rewrite H0.
Qed.

Section pvalues.
Context {G : Generator}.
Implicit Types (w : World) (df : DataFrame).
Local Arguments for_ : simpl never.

(** C1 (amended): for a household table with at least one row, every
    iteration i and every tracked variable, compute_pvalues writes one
    and the same number into the p-value column of all segments: the
    number of segment keys whose permuted mean exceeds, in absolute
    value, the true mean of the same segment key, divided by the number
    of rows of the permuted aggregate. *)
Theorem compute_pvalues_row_by_row w data df blk tl N :
  heap w !! data = Some df →
  households df blk tl →
  tl ≠ [] →
  ∃ aggs w' dfN T,
    compute_pvalues data N w = (Ok aggs, w') ∧
    heap w' !! data = Some dfN ∧
    heap w' !! aggs = Some T ∧
    index T = unique_sorted tl ∧
    ∀ (i : nat) c, (i < N)%nat → c ∈ tracked →
      ∃ synth xs ys,
        groupby_mean dfN (permuted_name (Z.of_nat i)) tracked = Ok synth ∧
        index synth = index T ∧
        columns synth !! c = Some (Float64 xs) ∧
        columns T !! c = Some (Float64 ys) ∧
        length xs = nrows T ∧ length ys = nrows T ∧
        columns T !! p_name c (Z.of_nat i) =
          Some (Float64 (replicate (nrows T)
                  (Fin (Z.of_nat (matched_exceed_count xs ys)
                        # Pos.of_nat (nrows synth))))).
Proof.
  intros Hdf Hh Hnil.
  destruct (compute_pvalues_ok w data df blk tl N) as (w' & Hrun & Hinv); [done..|].
  destruct (computing_facts _ _ _ _ _ _ _ _ Hh Hinv)
    as (dfN & T & Hdata & Haggs & _ & _ & HidxT & _ & _ & Hit).
  exists (length (heap w)), w', dfN, T. do 4 (split; [done|]).
  intros i c Hi Hc.
  destruct (Hit i c Hi Hc) as (p & s & _ & _ & _ & _ & Hsynth & Hus & Hxs & Hys & Hp).
  eexists _, _, _. split; [exact Hsynth|]. simpl.
  split; [by rewrite Hus, HidxT|]. split; [exact Hxs|]. split; [exact Hys|].
  unfold nrows. rewrite !segment_means_length, Hus, HidxT.
  do 2 (split; [done|]). rewrite Hp. unfold p_scalar, nrows. simpl. by rewrite HidxT.
Qed.

Lemma iteration_body_zero_rows w data aggs i dfi T blk :
  data ≠ aggs →
  heap w !! data = Some dfi →
  heap w !! aggs = Some T →
  columns dfi !! "BLKID" = Some (Int64 blk) →
  columns dfi !! "TLID" = Some (Int64 []) →
  blk = [] →
  index T = [] →
  (∀ c, c ∈ tracked → is_Some (columns dfi !! c) ∧ is_Some (columns T !! c)) →
  ∃ w',
    iteration_body data aggs i w = (Raise ZeroDivisionError, w') ∧
    heap w' !! data = Some (setitem dfi (permuted_name i) (Int64 [])) ∧
    groupby_mean (setitem dfi (permuted_name i) (Int64 [])) (permuted_name i) tracked
      = Ok (aggregate (setitem dfi (permuted_name i) (Int64 []))
              (permuted_name i) [] tracked).
Proof.
  intros Hne Hdata Haggs Hblk Htl -> HidxT Hvars.
  assert (data < length (heap w))%nat as Hld by by eapply lookup_lt_Some.
  unfold iteration_body.
  rewrite (bind_ok _ _ _ _ _
             (permute_houses_run w data i dfi [] (Int64 []) Hdata Hblk Htl)).
  assert (series_transform_permutation [] (Int64 []) (np_random w)
          = (Int64 [], np_random w)) as -> by reflexivity.
  cbn [fst snd].
  set (dfi' := setitem dfi (permuted_name i) (Int64 [])).
  set (w2 := mkWorld i (np_random w) (<[data := dfi']> (heap w))).
  assert (heap w2 !! data = Some dfi') as Hd2 by by apply list_lookup_insert_eq.
  assert (heap w2 !! aggs = Some T) as Ha2.
  { simpl. by rewrite list_lookup_insert_ne. }
  assert (∀ c, c ∈ tracked → columns dfi' !! c = columns dfi !! c) as Hsame.
  { intros c Hc. simpl. rewrite lookup_insert_ne; [done|]. intros <-.
    destruct (permuted_name_not_key i) as [Hk _]. apply Hk. by right. }
  assert (groupby_mean dfi' (permuted_name i) tracked =
          Ok (aggregate dfi' (permuted_name i) [] tracked)) as Hsynth.
  { apply groupby_mean_ok; [simpl; apply lookup_insert_eq|].
    intros c Hc. rewrite Hsame by done. by apply Hvars. }
  rewrite (bind_ok _ _ _ _ _ (deref_ok _ _ _ Hd2)).
  rewrite (bind_ok _ _ _ _ _ (lift_ok _ _ _ Hsynth)).
  exists w2. split; [|done].
  assert ("A" ∈ tracked) as HA by left.
  destruct (Hvars "A" HA) as [[s Hs] [a Ha]].
  unfold tracked. cbn [for_].
  apply bind_raise, (p_value_body_raise _ _ _ T); [done|].
  eapply p_value_zero_rows; [|exact Ha|by rewrite HidxT|done].
  rewrite aggregate_lookup; [by rewrite Hsame, Hs|done|].
  intros Heq. destruct (permuted_name_not_key i) as [Hk _]. apply Hk.
  rewrite <- Heq. by right.
Qed.

(* find_p_vals on a household table without rows *)
Lemma compute_pvalues_empty_table w data df blk N :
  heap w !! data = Some df →
  households df blk [] →
  N ≠ 0%nat →
  ∃ w' dfN synth,
    compute_pvalues data N w = (Raise ZeroDivisionError, w') ∧
    find_p_vals data N w = (Raise ZeroDivisionError, w') ∧
    heap w' !! data = Some dfN ∧
    groupby_mean dfN (permuted_name 0) tracked = Ok synth ∧
    nrows synth = 0%nat ∧
    ∀ c, c ∈ tracked → p_value synth (aggregate df "TLID" [] tracked) c
                        = Raise ZeroDivisionError.
Proof.
  intros Hdf Hh HN. pose proof Hh as (Hwf & Hblk & Htl & Hvars).
  destruct (households_lengths _ _ _ Hh) as [Hlb Hlt].
  assert (blk = []) as -> by (apply nil_length_inv; simpl in *; congruence).
  assert (data < length (heap w))%nat as Hld by by eapply lookup_lt_Some.
  set (aggs0 := aggregate df "TLID" [] tracked).
  set (w0 := mkWorld (py_random w) (np_random w) (heap w ++ [aggs0])).
  assert (∀ c, c ∈ tracked → is_Some (columns aggs0 !! c)) as Haggs0.
  { intros c Hc. destruct (Hvars c Hc) as [s Hs]. unfold aggs0.
    rewrite aggregate_lookup, Hs; [done..|]. intros ->. by apply tracked_not_key. }
  destruct (iteration_body_zero_rows w0 data (length (heap w)) 0 df aggs0 [])
    as (w' & Hrun & Hdata & Hsynth); try done.
  { lia. }
  { simpl. by rewrite lookup_app_l. }
  { simpl. by rewrite lookup_app_r, Nat.sub_diag. }
  { intros c Hc. split; [by apply Hvars|by apply Haggs0]. }
  assert (compute_pvalues data N w = (Raise ZeroDivisionError, w')) as Hcomp.
  { unfold compute_pvalues.
    rewrite (bind_ok _ _ _ _ _ (deref_ok _ _ _ Hdf)).
    rewrite (bind_ok _ _ _ _ _ (lift_ok _ _ _
               (groupby_mean_ok df "TLID" tracked [] Htl Hvars))).
    unfold alloc at 1. unfold mbind at 1, Py_bind at 1, bind at 1.
    fold aggs0. fold w0. apply bind_raise.
    destruct N as [|N]; [done|]. unfold range. cbn [seq fmap list_fmap for_].
    by apply bind_raise. }
  eexists w', _, _. split; [done|].
  split. { unfold find_p_vals. by apply bind_raise. }
  split; [exact Hdata|]. split; [exact Hsynth|]. split; [done|].
  intros c Hc. destruct (Haggs0 c Hc) as [a Ha]. destruct (Hvars c Hc) as [s Hs].
  eapply p_value_zero_rows; [|exact Ha|done..].
  rewrite aggregate_lookup; [|done|].
  - simpl. rewrite lookup_insert_ne, Hs; [done|]. intros Heq.
    destruct (permuted_name_not_key 0) as [Hk _]. apply Hk. rewrite Heq. by right.
  - intros Heq. destruct (permuted_name_not_key 0) as [Hk _]. apply Hk.
    rewrite <- Heq. by right.
Qed.

(** C4: when the household table has no rows, the permuted aggregate has
    none either, and the p-value computation of the first iteration
    raises ZeroDivisionError: find_p_vals returns no table. *)
Theorem zero_rows_division_error w data df blk N :
  heap w !! data = Some df →
  households df blk [] →
  N ≠ 0%nat →
  ∃ w' dfN synth,
    compute_pvalues data N w = (Raise ZeroDivisionError, w') ∧
    find_p_vals data N w = (Raise ZeroDivisionError, w') ∧
    heap w' !! data = Some dfN ∧
    groupby_mean dfN (permuted_name 0) tracked = Ok synth ∧
    nrows synth = 0%nat ∧
    ∀ c, c ∈ tracked → p_value synth (aggregate df "TLID" [] tracked) c
                        = Raise ZeroDivisionError.
Proof. apply compute_pvalues_empty_table. Qed.

End pvalues.

(* --------------------------------------------------------------------- *)
(* find_p_vals as a whole                                                 *)
(* --------------------------------------------------------------------- *)

Lemma Forall2_exists {A B} (P : A → B → Prop) (l : list A) :
  (∀ a, a ∈ l → ∃ b, P a b) → ∃ k, Forall2 P l k.
Proof.
  induction l as [|a l IH]; intros H; [by exists []|].
  destruct (H a) as [b Hb]; [left|].
  destruct IH as [k Hk]; [intros a' ?; apply H; by right|].
  exists (b :: k). by constructor.
Qed.

Section whole.
Context {G : Generator}.
Implicit Types (w : World) (df : DataFrame).

Lemma computed_complete data aggs df blk tl h0 N w1 T :
  households df blk tl →
  computing data aggs df blk tl h0 N w1 →
  heap w1 !! aggs = Some T →
  ∀ c, c ∈ tracked → complete N T c.
Proof.
  intros Hh Hinv HT c Hc j Hj.
  destruct (computing_facts _ _ _ _ _ _ _ _ Hh Hinv)
    as (dfN & T0 & _ & HT0 & _ & _ & _ & _ & _ & Hit).
  simplify_eq.
  destruct (Hit (Z.to_nat j) c ltac:(lia) Hc)
    as (p & s & _ & _ & _ & _ & _ & _ & _ & _ & Hp).
  rewrite Z2Nat.id in Hp by lia. by rewrite Hp.
Qed.

(** C5 (amended): for a household table with at least one row and
    N >= 1, compute_pvalues followed by average_pvals with the same N
    leaves no per-iteration p-value column, exactly the mean column and
    one averaged p-value column of each tracked variable, and the index
    of the compute_pvalues output, the sorted segment keys. *)
Theorem compute_then_average w data df blk tl N :
  heap w !! data = Some df →
  households df blk tl →
  tl ≠ [] →
  N ≠ 0%nat →
  round_trip w data tl N.
Proof.
  intros Hdf Hh Hnil HN.
  destruct (compute_pvalues_ok w data df blk tl N) as (w1 & Hrun & Hinv); [done..|].
  destruct (computing_facts _ _ _ _ _ _ _ _ Hh Hinv)
    as (dfN & T & Hdata & Haggs & _ & _ & HidxT & HTt & HTnone & Hit).
  destruct (average_pvals_spec w1 (length (heap w)) T N Haggs)
    as (w2 & T' & Havg & HT' & Hidx' & Hmean & _ & Hgone & Hother).
  { by eapply computed_complete. }
  exists (length (heap w)), w1, w2, T, T'. do 4 (split; [done|]).
  assert (∀ c j, c ∈ tracked → columns T' !! p_name c j = None) as Hnop.
  { intros c j Hc. destruct (decide (0 ≤ j < Z.of_nat N)) as [Hj|Hj]; [by apply Hgone|].
    rewrite Hother.
    - apply HTnone; [by apply p_name_not_tracked|].
      intros u k Hu Hk Heq. apply p_name_inj in Heq as [_ ->]; [lia|done..].
    - intros v Hv. split; [by apply p_name_not_avg|].
      rewrite p_name_elem by done. intros [_ ?]. lia. }
  split; [done|]. split; [|done].
  apply set_eq. intros n. rewrite elem_of_dom, elem_of_list_to_set, elem_of_app.
  split.
  - intros Hsome.
    destruct (decide (n ∈ avg_name <$> tracked)) as [|Hna]; [by right|]. left.
    destruct (decide (n ∈ tracked)) as [|Hnt]; [done|]. exfalso.
    destruct (decide (n ∈ tracked ≫= λ c, p_name c <$> range N)) as [Hp|Hnp].
    + apply list_elem_of_bind in Hp as (c & (j & -> & _)%list_elem_of_fmap & Hc).
      rewrite Hnop in Hsome by done. by destruct Hsome.
    + rewrite Hother, HTnone in Hsome; [by destruct Hsome|done|..].
      * intros c j Hc Hj ->. apply Hnp, list_elem_of_bind. exists c.
        split; [|done]. apply p_name_elem; [done..|]. split; [done|lia].
      * intros v Hv. split.
        -- intros ->. apply Hna, list_elem_of_fmap. by exists v.
        -- intros Hin. apply Hnp, list_elem_of_bind. by exists v.
  - intros [Hn|(v & -> & Hv)%list_elem_of_fmap]; [|by rewrite Hmean].
    rewrite Hother; [by apply HTt|]. intros v Hv. split.
    + intros ->. by apply (avg_name_not_tracked v).
    + intros (j & -> & _)%list_elem_of_fmap. by apply (p_name_not_tracked v j).
Qed.


(** C7: for a household table with at least one row and N >= 1, every
    per-iteration p-value compute_pvalues writes and every averaged
    p-value find_p_vals returns lies in the closed interval [0, 1]. *)
Theorem p_values_unit_interval w data df blk tl N :
  heap w !! data = Some df →
  households df blk tl →
  tl ≠ [] →
  N ≠ 0%nat →
  ∃ aggs w1 w2 T T',
    compute_pvalues data N w = (Ok aggs, w1) ∧
    heap w1 !! aggs = Some T ∧
    find_p_vals data N w = (Ok aggs, w2) ∧
    heap w2 !! aggs = Some T' ∧
    (∀ c (i r : nat), c ∈ tracked → (i < N)%nat → (r < nrows T)%nat →
       ∃ x, cell T (p_name c (Z.of_nat i)) r = Some x ∧ unit_interval x) ∧
    (∀ c (r : nat), c ∈ tracked → (r < nrows T')%nat →
       ∃ x, cell T' (avg_name c) r = Some x ∧ unit_interval x).
Proof.
  intros Hdf Hh Hnil HN.
  destruct (compute_pvalues_ok w data df blk tl N) as (w1 & Hrun & Hinv); [done..|].
  destruct (computing_facts _ _ _ _ _ _ _ _ Hh Hinv)
    as (dfN & T & Hdata & Haggs & _ & _ & HidxT & _ & _ & Hit).
  destruct (average_pvals_spec w1 (length (heap w)) T N Haggs)
    as (w2 & T' & Havg & HT' & Hidx' & Hmean & _ & _ & _).
  { by eapply computed_complete. }
  assert (∀ c (i r : nat), c ∈ tracked → (i < N)%nat → (r < nrows T)%nat →
            ∃ x, cell T (p_name c (Z.of_nat i)) r = Some x ∧ unit_interval x)
    as Hcells.
  { intros c i r Hc Hi Hr.
    destruct (Hit i c Hi Hc) as (p & s & _ & _ & _ & _ & _ & Hus & _ & _ & Hp).
    exists (p_scalar p tl s). split.
    - unfold cell. rewrite Hp. simpl. by apply lookup_replicate_2.
    - apply p_scalar_unit. rewrite Hus. intros H0.
      by apply unique_sorted_nil_inv in H0. }
  exists (length (heap w)), w1, w2, T, T'. do 2 (split; [done|]).
  split. { unfold find_p_vals. by rewrite (bind_ok _ _ _ _ _ Hrun). }
  split; [done|]. split; [done|].
  intros c r Hc Hr. unfold nrows in Hr. rewrite Hidx' in Hr.
  destruct (Forall2_exists
    (λ j x, cell T (p_name c j) r = Some x ∧ unit_interval x) (range N))
    as [xs Hxs].
  { intros j [k Hk]%list_elem_of_lookup. apply range_lookup in Hk as [-> ?].
    by apply Hcells. }
  exists (mean xs). split.
  - unfold cell. rewrite (Hmean c Hc). simpl.
    rewrite row_means_lookup by done. do 2 f_equal.
    apply p_columns_row. eapply Forall2_impl; [exact Hxs|]. by intros ?? [? _].
  - apply mean_unit.
    + intros ->. apply Forall2_length in Hxs. rewrite range_length in Hxs.
      simpl in Hxs. lia.
    + eapply Forall2_Forall_r; [exact Hxs|]. apply Forall_true. by intros ?? [_ ?].
Qed.


End whole.

Lemma run_ok_eq {G : Generator} {A} (m : Py A) (w : World) a :
  (m w).1 = Ok a → m w = (Ok a, (m w).2).
Proof. destruct (m w). simpl. by intros ->. Qed.

Lemma ex_table_households : households ex_table [10; 10; 10; 20] [1; 2; 3; 4].
Proof.
  split; [compute_done|]. do 2 (split; [reflexivity|]).
  intros v Hv. tracked_cases Hv; by eexists.
Qed.

Lemma ex_singletons_households : households ex_singletons [10; 20] [1; 2].
Proof.
  split; [compute_done|]. do 2 (split; [reflexivity|]).
  intros v Hv. tracked_cases Hv; by eexists.
Qed.

Lemma ex_empty_households : households ex_empty [] [].
Proof.
  split; [compute_done|]. do 2 (split; [reflexivity|]).
  intros v Hv. tracked_cases Hv; by eexists.
Qed.

Lemma ex_pvalues_complete v j :
  v ∈ tracked → 0 ≤ j < Z.of_nat 2 → is_Some (columns ex_pvalues !! p_name v j).
Proof.
  intros Hv Hj.
  assert (Forall (λ n, is_Some (columns ex_pvalues !! n))
            (tracked ≫= λ c, p_name c <$> range 2)) as Hall by compute_done.
  rewrite Forall_forall in Hall. apply Hall, list_elem_of_bind. exists v.
  split; [|done]. by apply p_name_elem.
Qed.

(* --------------------------------------------------------------------- *)
(* The claims on the example tables                                       *)
(* --------------------------------------------------------------------- *)

Lemma compute_pvalues_row_by_row_witness :
  ∃ aggs w' T,
    compute_pvalues 0%nat 2 ex_world = (Ok aggs, w') ∧
    heap w' !! aggs = Some T ∧
    index T = unique_sorted [1; 2; 3; 4].
Proof.
  destruct (compute_pvalues_row_by_row (G := lcg) ex_world 0%nat ex_table
              [10; 10; 10; 20] [1; 2; 3; 4] 2 eq_refl ex_table_households
              ltac:(discriminate)) as (aggs & w' & dfN & T & Hrun & _ & HT & Hidx & _).
  exists aggs, w', T. exact (conj Hrun (conj HT Hidx)).
Defined.

(* C1 as stated fails: with two blocks of one household the permuted
   aggregate is the true aggregate, no row exceeds itself and the code
   writes 0 for every segment, where one of the two permuted means
   exceeds the true mean of segment 1 *)
Lemma global_comparison_fails : ¬ global_comparison (G := lcg).
Proof.
  intros H.
  pose (w' := (compute_pvalues 0%nat 1 ex_singletons_world).2).
  pose (dfN := heap w' !!! 0%nat).
  pose (T := heap w' !!! 1%nat).
  pose (synth := aggregate dfN (permuted_name 0) [1; 2] tracked).
  assert (cell T (p_name "A" (Z.of_nat 0)) 0 =
          Some (Fin (Z.of_nat (global_exceed_count [Fin (1 # 1); Fin (3 # 1)]
                                 (Fin (1 # 1))) # Pos.of_nat (nrows synth)))) as Habs.
  { apply (H ex_singletons_world 0%nat ex_singletons [10; 20] [1; 2] 1%nat
             1%nat w' dfN T 0%nat "A" synth [Fin (1 # 1); Fin (3 # 1)] 0%nat
             (Fin (1 # 1)) eq_refl ex_singletons_households).
    - apply run_ok_eq. vm_compute. reflexivity.
    - vm_compute. reflexivity.
    - vm_compute. reflexivity.
    - lia.
    - left.
    - vm_compute. reflexivity.
    - vm_compute. reflexivity.
    - vm_compute. reflexivity. }
  vm_compute in Habs. discriminate Habs.
Qed.

(* the same for every generator: the permutation of a block of one
   household is forced *)
Lemma global_comparison_fails_for_every_generator {G : Generator} (g : rng) :
  ¬ global_comparison (G := G).
Proof.
  intros H.
  set (w := mkWorld 0 g [ex_singletons]).
  destruct (compute_pvalues_ok w 0%nat ex_singletons [10; 20] [1; 2] 1)
    as (w' & Hrun & Hinv); [done|apply ex_singletons_households|done|].
  destruct (computing_facts _ _ _ _ _ _ _ _ ex_singletons_households Hinv)
    as (dfN & T & Hdata & Haggs & _ & _ & HidxT & _ & _ & Hit).
  assert ("A" ∈ tracked) as HA by left.
  destruct (Hit 0%nat "A" ltac:(lia) HA)
    as (p & s & Hp & Hpl & Hpg & Hs & Hsynth & Hus & Hxs & Hys & HTp).
  assert (p = [1; 2]) as ->.
  { clear -Hpl Hpg. destruct p as [|a [|b [|??]]]; simpl in Hpl; try lia.
    pose proof (Hpg 10) as H10. pose proof (Hpg 20) as H20.
    rewrite !group_values_cons in H10, H20. simpl in H10, H20.
    apply Permutation_singleton_r in H10, H20. congruence. }
  assert (s = Float64 [Fin 1; Fin 3]) as -> by (vm_compute in Hs; congruence).
  assert (cell T "A" 0 = Some (Fin (1 # 1))) as Hy.
  { unfold cell. rewrite Hys. vm_compute. reflexivity. }
  pose proof (H w 0%nat ex_singletons [10; 20] [1; 2] 1%nat _ w' dfN T 0%nat "A"
                _ _ 0%nat _ eq_refl ex_singletons_households Hrun Hdata Haggs
                ltac:(lia) HA Hsynth Hxs Hy) as Habs.
  unfold cell in Habs. rewrite HTp in Habs. unfold nrows in Habs.
  rewrite HidxT in Habs. vm_compute in Habs. discriminate Habs.
Qed.


Lemma zero_rows_division_error_witness :
  ∃ w',
    compute_pvalues 0%nat 1 ex_empty_world = (Raise ZeroDivisionError, w') ∧
    find_p_vals 0%nat 1 ex_empty_world = (Raise ZeroDivisionError, w').
Proof.
  destruct (zero_rows_division_error (G := lcg) ex_empty_world 0%nat ex_empty []
              1 eq_refl ex_empty_households ltac:(discriminate))
    as (w' & _ & _ & Hc & Hf & _).
  exists w'. exact (conj Hc Hf).
Defined.

(* C5 as stated fails: on the table without rows the first iteration
   raises ZeroDivisionError *)
Lemma round_trip_fails_on_empty_table : ¬ round_trip_on_every_table (G := lcg).
Proof.
  intros H.
  destruct (H ex_empty_world 0%nat ex_empty [] [] 1%nat eq_refl
              ex_empty_households ltac:(discriminate))
    as (aggs & w1 & _ & _ & _ & Hrun & _).
  apply (f_equal fst) in Hrun. vm_compute in Hrun. discriminate Hrun.
Qed.

(* the same for every generator *)
Lemma round_trip_fails_for_every_generator {G : Generator} (g : rng) :
  ¬ round_trip_on_every_table (G := G).
Proof.
  intros H.
  set (w := mkWorld 0 g [ex_empty]).
  destruct (H w 0%nat ex_empty [] [] 1%nat eq_refl ex_empty_households
              ltac:(discriminate)) as (aggs & w1 & _ & _ & _ & Hrun & _).
  destruct (compute_pvalues_empty_table w 0%nat ex_empty [] 1 eq_refl
              ex_empty_households ltac:(discriminate)) as (w' & _ & _ & Hc & _).
  rewrite Hc in Hrun. discriminate Hrun.
Qed.

Lemma compute_then_average_witness : round_trip ex_world 0%nat [1; 2; 3; 4] 2.
Proof.
  apply (compute_then_average (G := lcg) ex_world 0%nat ex_table
           [10; 10; 10; 20] [1; 2; 3; 4] 2);
    [reflexivity|exact ex_table_households|discriminate|discriminate].
Defined.


Lemma p_values_unit_interval_witness :
  ∃ aggs w2 T',
    find_p_vals 0%nat 2 ex_world = (Ok aggs, w2) ∧
    heap w2 !! aggs = Some T' ∧
    ∀ c (r : nat), c ∈ tracked → (r < nrows T')%nat →
      ∃ x, cell T' (avg_name c) r = Some x ∧ unit_interval x.
Proof.
  destruct (p_values_unit_interval (G := lcg) ex_world 0%nat ex_table
              [10; 10; 10; 20] [1; 2; 3; 4] 2 eq_refl ex_table_households
              ltac:(discriminate) ltac:(discriminate))
    as (aggs & w1 & w2 & T & T' & _ & _ & Hrun & HT' & _ & Havg).
  exists aggs, w2, T'. exact (conj Hrun (conj HT' Havg)).
Defined.

Lemma average_pvals_missing_column_witness :
  ∃ ms w',
    average_pvals 0%nat 2 ex_incomplete_world = (Raise (KeyError ms), w') ∧
    ms ≠ [].
Proof.
  destruct (average_pvals_missing_column (G := lcg) ex_incomplete_world 0%nat
              ex_incomplete 2 "C" 1 eq_refl)
    as (ms & w' & k & Hrun & Hne & _).
  - do 2 right. left.
  - lia.
  - vm_compute. reflexivity.
  - exists ms, w'. exact (conj Hrun Hne).
Defined.

(* C8 as stated fails: on the table that lacks C_p_1 the KeyError comes
   in the third turn of the loop, when A and B have been aggregated:
   A_avg_p has been written *)
Lemma missing_column_partial_aggregation :
  ¬ missing_column_without_aggregation (G := lcg).
Proof.
  intros H.
  destruct (H ex_incomplete_world 0%nat ex_incomplete 2%nat "C" 1 eq_refl)
    as (ms & w' & T' & Hrun & HT' & Hno).
  - do 2 right. left.
  - lia.
  - vm_compute. reflexivity.
  - apply (f_equal snd) in Hrun. cbn [snd] in Hrun. subst w'.
    apply list_lookup_total_correct in HT'. subst T'.
    destruct (Hno "A") as [Havg _]; [left|].
    vm_compute in Havg. discriminate Havg.
Qed.

(* the same for every generator, which average_pvals does not use *)
Lemma missing_column_partial_aggregation_for_every_generator
    {G : Generator} (g : rng) :
  ¬ missing_column_without_aggregation (G := G).
Proof.
  intros H.
  set (w := mkWorld 0 g [ex_incomplete]).
  destruct (H w 0%nat ex_incomplete 2%nat "C" 1 eq_refl)
    as (ms & w' & T' & Hrun & HT' & Hno).
  - do 2 right. left.
  - lia.
  - vm_compute. reflexivity.
  - apply (f_equal snd) in Hrun. cbn [snd] in Hrun. subst w'.
    apply list_lookup_total_correct in HT'. subst T'.
    destruct (Hno "A") as [Havg _]; [left|].
    vm_compute in Havg. discriminate Havg.
Qed.



(* the table without rows gains an empty column *)
Example permute_houses_empty_table :
  (permute_houses 0%nat 7 ex_empty_world).1 = Ok 0%nat ∧
  heap (permute_houses 0%nat 7 ex_empty_world).2 !! 0%nat
    = Some (setitem ex_empty "TLID_permuted_7" (Int64 [])).
Proof. split; vm_compute; reflexivity. Qed.

(** C2: permute_houses seeds the generator of random and draws from the
    generator of numpy.  With the same table and the same seed 0, the
    permuted column differs between two processes whose numpy generators
    are in different states (ex_world, ex_world'), and between two calls
    in a row; random is left in the state of seed 0 every time. *)
Theorem permute_houses_same_seed_differs :
  let run := permute_houses (G := lcg) 0%nat 0 in
  let column w := columns (heap w !!! 0%nat) !! "TLID_permuted_0" in
  (run ex_world).1 = Ok 0%nat ∧
  (run ex_world').1 = Ok 0%nat ∧
  (run (run ex_world).2).1 = Ok 0%nat ∧
  column (run ex_world).2 = Some (Int64 [3; 2; 1; 4]) ∧
  column (run ex_world').2 = Some (Int64 [2; 1; 3; 4]) ∧
  column (run (run ex_world).2).2 = Some (Int64 [1; 3; 2; 4]) ∧
  py_random (run ex_world).2 = 0 ∧
  py_random (run ex_world').2 = 0 ∧
  py_random (run (run ex_world).2).2 = 0.
Proof. repeat split; vm_compute; reflexivity. Qed.

(* --------------------------------------------------------------------- *)
(* Tables that lack a column                                             *)
(* --------------------------------------------------------------------- *)

Section schema.
Context {G : Generator}.
Implicit Types (w : World) (df : DataFrame).

Lemma permute_houses_no_blkid w dem_data seed df :
  heap w !! dem_data = Some df →
  columns df !! "BLKID" = None →
  permute_houses dem_data seed w =
    (Raise (KeyError ["BLKID"]), mkWorld seed (np_random w) (heap w)).
Proof.
  intros Hdf Hblk. unfold permute_houses.
  unfold mbind, Py_bind, bind, random_seed, deref, lift, getitem. simpl.
  by rewrite (list_lookup_total_correct _ _ _ Hdf), Hblk.
Qed.

(** X1: on a table without the BLKID column permute_houses raises
    KeyError for BLKID, and on a table with BLKID but without TLID
    KeyError for TLID.  By then random has been reseeded; the table, the
    other tables and numpy's generator are as before. *)
Theorem permute_houses_missing_key w dem_data seed df :
  heap w !! dem_data = Some df →
  (columns df !! "BLKID" = None →
     permute_houses dem_data seed w =
       (Raise (KeyError ["BLKID"]), mkWorld seed (np_random w) (heap w))) ∧
  (∀ blk, columns df !! "BLKID" = Some (Int64 blk) →
     columns df !! "TLID" = None →
     permute_houses dem_data seed w =
       (Raise (KeyError ["TLID"]), mkWorld seed (np_random w) (heap w))).
Proof.
  intros Hdf. split.
  - by apply permute_houses_no_blkid.
  - intros blk Hblk Htl. unfold permute_houses.
    unfold mbind, Py_bind, bind, random_seed, deref, lift, getitem. simpl.
    rewrite (list_lookup_total_correct _ _ _ Hdf), Hblk. simpl. by rewrite Htl.
Qed.

(** X2: when the household table lacks TLID or one of the variables A to
    E, find_p_vals raises a KeyError at the selection of line 87.  The
    error names exactly the absent ones among these six labels, and
    nothing has changed by then: no table, neither generator. *)
Theorem find_p_vals_missing_column w data df N n :
  heap w !! data = Some df →
  n ∈ "TLID" :: tracked →
  columns df !! n = None →
  ∃ ms,
    find_p_vals data N w = (Raise (KeyError ms), w) ∧
    n ∈ ms ∧
    ∀ m, m ∈ ms ↔ columns df !! m = None ∧ m ∈ "TLID" :: tracked.
Proof.
  intros Hdf Hn Hnone.
  assert (n ∈ missing_labels df ("TLID" :: tracked)) as Hin
    by by apply missing_labels_elem.
  destruct (missing_labels df ("TLID" :: tracked)) as [|m ms] eqn:Hm.
  { by apply elem_of_nil in Hin. }
  exists (m :: ms). split; [|split; [done|]].
  - unfold find_p_vals, compute_pvalues.
    apply bind_raise. rewrite (bind_ok _ _ _ _ _ (deref_ok _ _ _ Hdf)).
    apply bind_raise, lift_raise. unfold groupby_mean, getitem_list.
    by rewrite Hm.
  - intros m'. rewrite <- Hm. apply missing_labels_elem.
Qed.

(** X3: when the household table has TLID and the five variables but no
    BLKID column, find_p_vals with N >= 1 raises KeyError for BLKID in
    the first call of permute_houses.  The household table is as before
    and so is numpy's generator; random has been seeded with 0 and the
    table of true means has been built. *)
Theorem find_p_vals_missing_block_key w data df tl N :
  heap w !! data = Some df →
  columns df !! "TLID" = Some (Int64 tl) →
  (∀ v, v ∈ tracked → is_Some (columns df !! v)) →
  columns df !! "BLKID" = None →
  N ≠ 0%nat →
  find_p_vals data N w =
    (Raise (KeyError ["BLKID"]),
     mkWorld 0 (np_random w) (heap w ++ [aggregate df "TLID" tl tracked])).
Proof.
  intros Hdf Htl Hvars Hblk HN.
  unfold find_p_vals, compute_pvalues. apply bind_raise.
  rewrite (bind_ok _ _ _ _ _ (deref_ok _ _ _ Hdf)).
  rewrite (bind_ok _ _ _ _ _ (lift_ok _ _ _
             (groupby_mean_ok df "TLID" tracked tl Htl Hvars))).
  unfold alloc at 1. unfold mbind at 1, Py_bind at 1, bind at 1.
  apply bind_raise. destruct N as [|N]; [done|].
  unfold range. cbn [seq fmap list_fmap for_]. apply bind_raise.
  unfold iteration_body. apply bind_raise.
  erewrite (permute_houses_no_blkid _ data _ df); [reflexivity| |done].
  simpl. rewrite lookup_app_l; [done|]. by eapply lookup_lt_Some.
Qed.

End schema.

(* --------------------------------------------------------------------- *)
(* The table find_p_vals returns                                         *)
(* --------------------------------------------------------------------- *)

Lemma row_means_nil n : row_means n [] = replicate n NaN.
Proof.
  unfold row_means. generalize 0%nat. induction n as [|n IH]; intros k; [done|].
  simpl. by rewrite IH.
Qed.

(* the mean of each row over columns that are constant *)
Lemma row_means_replicate n (ps : list float) :
  row_means n (replicate n <$> ps) = replicate n (mean ps).
Proof.
  apply list_eq. intros r. destruct (decide (r < n)%nat) as [Hr|Hr].
  - rewrite row_means_lookup, lookup_replicate_2 by done. do 2 f_equal.
    induction ps as [|p ps IH]; [done|]. csimpl.
    rewrite lookup_replicate_2 by done. simpl. by rewrite IH.
  - rewrite !lookup_ge_None_2; [done|..].
    + rewrite length_replicate. lia.
    + unfold row_means. rewrite length_fmap, length_seq. lia.
Qed.

Lemma unique_sorted_sorted keys :
  Sorted Z.le (unique_sorted keys) ∧ NoDup (unique_sorted keys).
Proof.
  unfold unique_sorted. split.
  - apply Sorted_merge_sort. apply _.
  - rewrite merge_sort_Permutation. apply NoDup_elements.
Qed.

Lemma Forall2_choice {A B C} (Q : A → C → Prop) (f : C → B) l xs :
  Forall2 (λ a x, ∃ c, Q a c ∧ x = f c) l xs →
  ∃ cs, Forall2 Q l cs ∧ xs = f <$> cs.
Proof.
  induction 1 as [|a x l xs (c & Hc & ->) _ (cs & Hcs & ->)]; [by exists []|].
  exists (c :: cs). split; [by constructor|done].
Qed.

Lemma ex_one_segment_households :
  households ex_one_segment [10; 10; 20] [1; 1; 2].
Proof.
  split; [compute_done|]. do 2 (split; [reflexivity|]).
  intros v Hv. tracked_cases Hv; by eexists.
Qed.

Section outputs.
Context {G : Generator}.
Implicit Types (w : World) (df : DataFrame).

(* find_p_vals, run on a household table with at least one row *)
Lemma find_p_vals_ok w data df blk tl N :
  heap w !! data = Some df → households df blk tl → tl ≠ [] →
  ∃ w1 dfN T,
    compute_pvalues data N w = (Ok (length (heap w)), w1) ∧
    computing data (length (heap w)) df blk tl
      (heap w ++ [aggregate df "TLID" tl tracked]) N w1 ∧
    heap w1 !! data = Some dfN ∧
    heap w1 !! length (heap w) = Some T ∧
    find_p_vals data N w =
      (Ok (length (heap w)),
       set_heap w1 (<[length (heap w) := foldl (collapse N) T tracked]> (heap w1))).
Proof.
  intros Hdf Hh Hnil.
  destruct (compute_pvalues_ok w data df blk tl N) as (w1 & Hrun & Hinv); [done..|].
  destruct (computing_facts _ _ _ _ _ _ _ _ Hh Hinv)
    as (dfN & T & Hdata & Haggs & _).
  exists w1, dfN, T. do 4 (split; [done|]).
  unfold find_p_vals. rewrite (bind_ok _ _ _ _ _ Hrun).
  apply average_pvals_ok; [done|]. by eapply computed_complete.
Qed.

(** X4: with iterations = 0 find_p_vals succeeds as soon as the table
    has TLID and the five variables (BLKID is not looked at, and a table
    without rows is fine).  It returns a new table with one row per
    segment key, the true mean of every variable, and an averaged
    p-value column of every variable that holds NaN in every row; the
    household table and both generators are as before. *)
Theorem find_p_vals_zero_iterations w data df tl :
  heap w !! data = Some df →
  columns df !! "TLID" = Some (Int64 tl) →
  (∀ v, v ∈ tracked → is_Some (columns df !! v)) →
  ∃ T',
    find_p_vals data 0 w = (Ok (length (heap w)), set_heap w (heap w ++ [T'])) ∧
    index T' = unique_sorted tl ∧
    (∀ v, v ∈ tracked →
       columns T' !! avg_name v =
         Some (Float64 (replicate (length (unique_sorted tl)) NaN))) ∧
    (∀ v s, v ∈ tracked → columns df !! v = Some s →
       columns T' !! v = Some (Float64 (segment_means tl s))).
Proof.
  intros Hdf Htl Hvars.
  set (aggs0 := aggregate df "TLID" tl tracked).
  set (w0 := set_heap w (heap w ++ [aggs0])).
  assert (heap w0 !! length (heap w) = Some aggs0) as Ha
    by (simpl; by rewrite lookup_app_r, Nat.sub_diag).
  exists (foldl (collapse 0) aggs0 tracked). split; [|split; [|split]].
  - assert (compute_pvalues data 0 w = (Ok (length (heap w)), w0)) as Hrun.
    { unfold compute_pvalues.
      rewrite (bind_ok _ _ _ _ _ (deref_ok _ _ _ Hdf)).
      by rewrite (bind_ok _ _ _ _ _ (lift_ok _ _ _
                    (groupby_mean_ok df "TLID" tracked tl Htl Hvars))). }
    unfold find_p_vals. rewrite (bind_ok _ _ _ _ _ Hrun).
    rewrite (average_pvals_ok w0 (length (heap w)) aggs0 0 Ha).
    + unfold set_heap. simpl. do 3 f_equal.
      by rewrite insert_app_r_alt, Nat.sub_diag.
    + intros v _ j Hj. simpl in Hj. lia.
  - by rewrite collapsed_index.
  - intros v Hv. rewrite collapsed_lookup_avg; [|done|apply tracked_NoDup|done].
    unfold averaged, p_columns, range. simpl. by rewrite row_means_nil.
  - intros v s Hv Hs. rewrite collapsed_lookup_other.
    + unfold aggs0. rewrite aggregate_lookup, Hs; [done..|].
      intros ->. by apply tracked_not_key.
    + intros u Hu. split.
      * intros ->. by apply (avg_name_not_tracked u).
      * intros (j & -> & _)%list_elem_of_fmap. by apply (p_name_not_tracked u j).
Qed.

(* the table find_p_vals returns *)
Lemma find_p_vals_result w data df blk tl N :
  heap w !! data = Some df → households df blk tl → tl ≠ [] →
  ∃ w2 dfN T',
    find_p_vals data N w = (Ok (length (heap w)), w2) ∧
    heap w2 !! data = Some dfN ∧
    heap w2 !! length (heap w) = Some T' ∧
    index T' = unique_sorted tl ∧
    (∀ v s, v ∈ tracked → columns df !! v = Some s →
       columns T' !! v = Some (Float64 (segment_means tl s))) ∧
    (∀ v, v ∈ tracked → ∃ ps,
       Forall2 (λ (i : nat) x, ∃ p s,
                  columns dfN !! permuted_name (Z.of_nat i) = Some (Int64 p) ∧
                  length p = length blk ∧
                  (∀ b, group_values blk p b ≡ₚ group_values blk tl b) ∧
                  columns df !! v = Some s ∧
                  x = p_scalar p tl s) (seq 0 N) ps ∧
       columns T' !! avg_name v =
         Some (Float64 (replicate (length (unique_sorted tl)) (mean ps)))).
Proof.
  intros Hdf Hh Hnil.
  assert (data < length (heap w))%nat as Hld by by eapply lookup_lt_Some.
  destruct (find_p_vals_ok w data df blk tl N)
    as (w1 & dfN & T & _ & Hinv & Hdata & Haggs & Hrun); [done..|].
  destruct (computing_facts _ _ _ _ _ _ _ _ Hh Hinv)
    as (dfN' & T0 & Hdata' & Haggs' & _ & _ & HidxT & _ & _ & Hit).
  pose proof (eq_trans (eq_sym Hdata) Hdata') as [= <-].
  pose proof (eq_trans (eq_sym Haggs) Haggs') as [= <-].
  destruct Hinv as (dfi & T1 & _ & _ & _ & Haggs1 & _ & _ & _ & HTcols & _).
  pose proof (eq_trans (eq_sym Haggs) Haggs1) as [= <-].
  assert (length (heap w) < length (heap w1))%nat as Hla by by eapply lookup_lt_Some.
  eexists. exists dfN, (foldl (collapse N) T tracked).
  split; [exact Hrun|]. unfold set_heap. cbn [heap].
  split. { rewrite list_lookup_insert_ne; [done|lia]. }
  split; [by apply list_lookup_insert_eq|].
  split; [by rewrite collapsed_index|].
  split.
  { intros v s Hv Hs. rewrite collapsed_lookup_other.
    - rewrite HTcols.
      + rewrite aggregate_lookup, Hs; [done..|]. intros ->. by apply tracked_not_key.
      + intros u j Hu _ ->. by apply (p_name_not_tracked u (Z.of_nat j)).
    - intros u Hu. split.
      * intros ->. by apply (avg_name_not_tracked u).
      * intros (j & -> & _)%list_elem_of_fmap. by apply (p_name_not_tracked u j). }
  intros v Hv.
  destruct (Forall2_exists
    (λ (i : nat) x, ∃ p s,
       columns dfN !! permuted_name (Z.of_nat i) = Some (Int64 p) ∧
       length p = length blk ∧
       (∀ b, group_values blk p b ≡ₚ group_values blk tl b) ∧
       columns df !! v = Some s ∧
       x = p_scalar p tl s ∧
       columns T !! p_name v (Z.of_nat i) =
         Some (Float64 (replicate (nrows T) x))) (seq 0 N)) as [ps Hps].
  { intros i [k Hk]%list_elem_of_lookup. apply lookup_seq in Hk as [-> Hk].
    destruct (Hit k v Hk Hv) as (p & s & Hp & Hpl & Hpg & Hs & _ & _ & _ & _ & HTp).
    by exists (p_scalar p tl s), p, s. }
  exists ps. split.
  { eapply Forall2_impl; [exact Hps|]. intros i x (p & s & ? & ? & ? & ? & ? & _).
    by exists p, s. }
  rewrite collapsed_lookup_avg; [|done|apply tracked_NoDup|done].
  unfold averaged. do 2 f_equal. rewrite <- HidxT. fold (nrows T).
  rewrite <- row_means_replicate. f_equal.
  unfold p_columns, range. rewrite <- list_fmap_compose.
  clear -Hps. induction Hps as [|i x js xs (p & s & _ & _ & _ & _ & _ & Hx) _ IH];
    [done|].
  csimpl. rewrite Hx. simpl. by rewrite IH.
Qed.

(** X5: in the table find_p_vals returns, the cell of a variable at the
    row of a segment key is the mean of that variable over the
    households of that segment, the variable read as floats and NaN
    cells skipped (line 87). *)
Theorem find_p_vals_true_means w data df blk tl N :
  heap w !! data = Some df → households df blk tl → tl ≠ [] →
  ∃ aggs w2 T',
    find_p_vals data N w = (Ok aggs, w2) ∧
    heap w2 !! aggs = Some T' ∧
    index T' = unique_sorted tl ∧
    ∀ v s r k, v ∈ tracked → columns df !! v = Some s →
      index T' !! r = Some k →
      k ∈ tl ∧
      cell T' v r = Some (mean (group_values tl (astype_float s) k)).
Proof.
  intros Hdf Hh Hnil.
  destruct (find_p_vals_result w data df blk tl N)
    as (w2 & dfN & T' & Hrun & _ & HT' & Hidx & Hmeans & _); [done..|].
  exists (length (heap w)), w2, T'. do 3 (split; [done|]).
  intros v s r k Hv Hs Hk. rewrite Hidx in Hk. split.
  - apply unique_sorted_elem. by eapply list_elem_of_lookup_2.
  - unfold cell. rewrite (Hmeans v s Hv Hs). simpl.
    unfold segment_means. by rewrite list_lookup_fmap, Hk.
Qed.

(** X6: the table find_p_vals returns has one row for each segment key
    of the household table: its index is in ascending order, has no
    key twice, and holds exactly the keys of the TLID column. *)
Theorem find_p_vals_one_row_per_segment w data df blk tl N :
  heap w !! data = Some df → households df blk tl → tl ≠ [] →
  ∃ aggs w2 T',
    find_p_vals data N w = (Ok aggs, w2) ∧
    heap w2 !! aggs = Some T' ∧
    Sorted Z.le (index T') ∧
    NoDup (index T') ∧
    (∀ k, k ∈ index T' ↔ k ∈ tl).
Proof.
  intros Hdf Hh Hnil.
  destruct (find_p_vals_result w data df blk tl N)
    as (w2 & dfN & T' & Hrun & _ & HT' & Hidx & _ & _); [done..|].
  exists (length (heap w)), w2, T'. do 2 (split; [done|]).
  rewrite Hidx. split; [apply unique_sorted_sorted|].
  split; [apply unique_sorted_sorted|]. apply unique_sorted_elem.
Qed.

(** X7: the averaged p-value column of a variable, in the table
    find_p_vals returns, holds one and the same number in every row: the
    mean, over the N permuted-label columns left in the household table,
    of the share of segment keys whose mean under the permuted labels
    exceeds, in absolute value, the true mean of the same segment key. *)
Theorem find_p_vals_averaged_column w data df blk tl N v s :
  heap w !! data = Some df → households df blk tl → tl ≠ [] →
  v ∈ tracked → columns df !! v = Some s →
  ∃ aggs w2 dfN T' perms,
    find_p_vals data N w = (Ok aggs, w2) ∧
    heap w2 !! data = Some dfN ∧
    heap w2 !! aggs = Some T' ∧
    length perms = N ∧
    (∀ (i : nat) p, perms !! i = Some p →
       columns dfN !! permuted_name (Z.of_nat i) = Some (Int64 p)) ∧
    columns T' !! avg_name v =
      Some (Float64 (replicate (nrows T')
              (mean ((λ p, p_scalar p tl s) <$> perms)))).
Proof.
  intros Hdf Hh Hnil Hv Hs.
  destruct (find_p_vals_result w data df blk tl N)
    as (w2 & dfN & T' & Hrun & Hdata & HT' & Hidx & _ & Havg); [done..|].
  destruct (Havg v Hv) as (ps & Hps & Hcol).
  destruct (Forall2_choice
    (λ (i : nat) p, columns dfN !! permuted_name (Z.of_nat i) = Some (Int64 p))
    (λ p, p_scalar p tl s) (seq 0 N) ps) as (perms & Hperms & ->).
  { eapply Forall2_impl; [exact Hps|].
    intros i x (p & s' & Hp & _ & _ & Hs' & ->). exists p.
    split; [done|]. congruence. }
  exists (length (heap w)), w2, dfN, T', perms. do 3 (split; [done|]).
  split. { apply Forall2_length in Hperms. by rewrite length_seq in Hperms. }
  split.
  - intros i p Hp.
    destruct (Forall2_lookup_r _ _ _ _ _ Hperms Hp) as (j & Hj & Hcolj).
    apply lookup_seq in Hj as [-> _]. done.
  - unfold nrows. by rewrite Hidx.
Qed.

(** X8: find_p_vals returns a table of its own, a new object, and
    writes to no table other than the household table it was given. *)
Theorem find_p_vals_fresh_table w data df blk tl N :
  heap w !! data = Some df → households df blk tl → tl ≠ [] →
  ∃ w2,
    find_p_vals data N w = (Ok (length (heap w)), w2) ∧
    length (heap w2) = S (length (heap w)) ∧
    ∀ l, l ≠ data → (l < length (heap w))%nat → heap w2 !! l = heap w !! l.
Proof.
  intros Hdf Hh Hnil.
  destruct (find_p_vals_ok w data df blk tl N)
    as (w1 & dfN & T & _ & Hinv & _ & _ & Hrun); [done..|].
  destruct Hinv as (_ & _ & Hlen & Hother & _).
  eexists. split; [exact Hrun|]. unfold set_heap. cbn [heap].
  rewrite length_insert, Hlen, length_app. simpl. split; [lia|].
  intros l Hne Hl. rewrite list_lookup_insert_ne by lia.
  rewrite Hother by lia. by apply lookup_app_l.
Qed.

(* the household table after find_p_vals is a household table again *)
Lemma find_p_vals_input w data df blk tl N :
  heap w !! data = Some df → households df blk tl → tl ≠ [] →
  ∃ w2 dfN,
    find_p_vals data N w = (Ok (length (heap w)), w2) ∧
    length (heap w2) = S (length (heap w)) ∧
    heap w2 !! data = Some dfN ∧
    households dfN blk tl ∧
    index dfN = index df ∧
    (∀ i, (i < N)%nat → is_Some (columns dfN !! permuted_name (Z.of_nat i))) ∧
    (∀ n, (∀ i, (i < N)%nat → n ≠ permuted_name (Z.of_nat i)) →
          columns dfN !! n = columns df !! n).
Proof.
  intros Hdf Hh Hnil. pose proof Hh as (Hwf & Hblk & Htl & Hvars).
  destruct (households_lengths _ _ _ Hh) as [Hlb Hlt].
  assert (data < length (heap w))%nat as Hld by by eapply lookup_lt_Some.
  destruct (find_p_vals_ok w data df blk tl N)
    as (w1 & dfN & T & _ & Hinv & Hdata & Haggs & Hrun); [done..|].
  destruct (computing_facts _ _ _ _ _ _ _ _ Hh Hinv)
    as (dfN' & T0 & Hdata' & _ & Hidx & Hcols & _ & _ & _ & Hit).
  pose proof (eq_trans (eq_sym Hdata) Hdata') as [= <-].
  destruct Hinv as (_ & _ & Hlen & _).
  assert (∀ i, (i < N)%nat → ∃ p,
            columns dfN !! permuted_name (Z.of_nat i) = Some (Int64 p) ∧
            length p = length blk) as Hperm.
  { intros i Hi. destruct (Hit i "A" Hi) as (p & s & Hp & Hpl & _); [by left|].
    by exists p. }
  assert (∀ n, n = "BLKID" ∨ n ∈ "TLID" :: tracked →
            columns dfN !! n = columns df !! n) as Hkeep.
  { intros n Hn. apply Hcols. intros i _ ->.
    destruct (permuted_name_not_key (Z.of_nat i)) as [H1 H2].
    destruct Hn as [?|?]; done. }
  eexists _, dfN. split; [exact Hrun|]. unfold set_heap. cbn [heap].
  split. { rewrite length_insert, Hlen, length_app. simpl. lia. }
  split. { rewrite list_lookup_insert_ne; [done|lia]. }
  split; [|split; [done|split; [|done]]].
  - split; [|split; [|split]].
    + intros n s Hs.
      destruct (decide (n ∈ (λ i, permuted_name (Z.of_nat i)) <$> seq 0 N))
        as [Hin|Hout].
      * apply list_elem_of_fmap in Hin as (i & -> & [k Hk]%list_elem_of_lookup).
        apply lookup_seq in Hk as [-> Hk]. cbn [Nat.add] in Hs.
        destruct (Hperm k Hk) as (p & Hp & Hpl).
        rewrite Hp in Hs. injection Hs as <-. unfold nrows. simpl.
        rewrite Hidx. fold (nrows df). congruence.
      * rewrite Hcols in Hs.
        { unfold nrows. rewrite Hidx. by apply (Hwf n s). }
        intros i Hi ->. apply Hout. apply list_elem_of_fmap.
        exists i. split; [done|]. apply list_elem_of_lookup. exists i.
        by apply lookup_seq.
    + rewrite Hkeep; [done|by left].
    + rewrite Hkeep; [done|right; left].
    + intros v Hv. rewrite Hkeep; [by apply Hvars|right; by right].
  - intros i Hi. destruct (Hperm i Hi) as (p & -> & _). done.
Qed.

(** X9: find_p_vals can be run again on the household table it has
    written to.  The second run succeeds, returns another new table, and
    overwrites the N permuted-label columns: the household table has
    the same rows and the same column labels after the second run as
    after the first. *)
Theorem find_p_vals_again w data df blk tl N :
  heap w !! data = Some df → households df blk tl → tl ≠ [] →
  ∃ aggs w2 dfN aggs' w3 dfN',
    find_p_vals data N w = (Ok aggs, w2) ∧
    heap w2 !! data = Some dfN ∧
    find_p_vals data N w2 = (Ok aggs', w3) ∧
    heap w3 !! data = Some dfN' ∧
    aggs' ≠ aggs ∧
    index dfN' = index dfN ∧
    dom (columns dfN') = dom (columns dfN).
Proof.
  intros Hdf Hh Hnil.
  destruct (find_p_vals_input w data df blk tl N)
    as (w2 & dfN & Hrun & Hlen & Hdata & Hh' & _ & Hperm & _); [done..|].
  destruct (find_p_vals_input w2 data dfN blk tl N)
    as (w3 & dfN' & Hrun' & _ & Hdata' & _ & Hidx' & Hperm' & Hcols'); [done..|].
  exists (length (heap w)), w2, dfN, (length (heap w2)), w3, dfN'.
  do 4 (split; [done|]). split; [lia|]. split; [done|].
  apply set_eq. intros n. rewrite !elem_of_dom.
  destruct (decide (n ∈ (λ i, permuted_name (Z.of_nat i)) <$> seq 0 N))
    as [Hin|Hout].
  - apply list_elem_of_fmap in Hin as (i & -> & [k Hk]%list_elem_of_lookup).
    apply lookup_seq in Hk as [-> Hk]. cbn [Nat.add]. split; intros _; auto.
  - rewrite Hcols'; [done|]. intros i Hi ->. apply Hout. apply list_elem_of_fmap.
    exists i. split; [done|]. apply list_elem_of_lookup. exists i.
    by apply lookup_seq.
Qed.

End outputs.

(* --------------------------------------------------------------------- *)
(* Rearranging inside the groups                                         *)
(* --------------------------------------------------------------------- *)

Section groups_whole.
Context {A : Type}.
Implicit Types (keys : list Z) (vals : list A) (k : Z).

(* a value of a group sits at a row of that group *)
Lemma group_values_elem_inv keys vals k x :
  x ∈ group_values keys vals k →
  ∃ r, keys !! r = Some k ∧ vals !! r = Some x.
Proof.
  revert vals. induction keys as [|k' keys IH]; intros [|v vals]; try by inversion 1.
  rewrite group_values_cons. destruct (decide (k' = k)) as [->|].
  - intros [->|Hx]%elem_of_cons; [by exists 0%nat|].
    destruct (IH _ Hx) as (r & ? & ?). by exists (S r).
  - intros Hx. destruct (IH _ Hx) as (r & ? & ?). by exists (S r).
Qed.

(* a column that is constant on every group is left as it is by a
   rearrangement inside the groups *)
Lemma constant_groups_fixed keys (vals1 vals2 : list A) :
  length vals1 = length keys → length vals2 = length keys →
  (∀ k, group_values keys vals1 k ≡ₚ group_values keys vals2 k) →
  (∀ r1 r2 k, keys !! r1 = Some k → keys !! r2 = Some k →
     vals2 !! r1 = vals2 !! r2) →
  vals1 = vals2.
Proof.
  intros Hl1 Hl2 Hg Hconst. apply list_eq. intros r.
  destruct (keys !! r) as [k|] eqn:Hk.
  - destruct (lookup_lt_is_Some_2 vals1 r) as [x Hx].
    { rewrite Hl1. by eapply lookup_lt_Some. }
    pose proof (group_values_lookup _ _ _ _ _ Hk Hx) as Hin.
    rewrite Hg in Hin. apply group_values_elem_inv in Hin as (r2 & Hk2 & Hx2).
    by rewrite Hx, (Hconst r r2 k Hk Hk2).
  - apply lookup_ge_None in Hk. rewrite !lookup_ge_None_2; [done|lia..].
Qed.




End groups_whole.

Lemma filter_all {A} (P : A → Prop) `{!∀ x, Decision (P x)} (l : list A) :
  (∀ x, x ∈ l → P x) → filter P l = l.
Proof.
  induction l as [|a l IH]; intros Hall; [done|].
  rewrite filter_cons_True by (apply Hall; left).
  f_equal. apply IH. intros x Hx. apply Hall. by right.
Qed.

Lemma float_gt_irrefl x : float_gt x x = false.
Proof.
  destruct x as [q|]; [|done]. simpl.
  assert (Qle_bool q q = true) as -> by (apply Qle_bool_iff; apply Qle_refl). done.
Qed.

(* no value exceeds itself *)
Lemma matched_exceed_count_same xs : matched_exceed_count xs xs = 0%nat.
Proof.
  unfold matched_exceed_count. induction xs as [|x xs IH]; [done|].
  simpl. rewrite filter_cons. simpl.
  by rewrite decide_False by (rewrite float_gt_irrefl; done).
Qed.

Lemma mean_zero (xs : list float) :
  xs ≠ [] → Forall is_zero xs → is_zero (mean xs).
Proof.
  intros Hne Hall. unfold mean.
  assert (Forall (λ q, q == 0)%Q (finite_values xs) ∧
          length (finite_values xs) = length xs) as [Hq Hlen].
  { clear Hne. unfold finite_values.
    induction Hall as [|[q|] xs Hx _ [IH1 IH2]]; csimpl; [done| |done].
    split; [by constructor|]. simpl. by f_equal. }
  destruct (finite_values xs) as [|q qs] eqn:Hf.
  { destruct xs; [done|]. simpl in Hlen. lia. }
  assert (Qsum (q :: qs) == 0)%Q as H0.
  { clear -Hq. induction Hq as [|q' qs' Hq' _ IH]; [done|].
    simpl. rewrite Hq', IH. reflexivity. }
  simpl. unfold Qdiv. change (q + Qsum qs)%Q with (Qsum (q :: qs)).
  rewrite H0. apply Qmult_0_l.
Qed.

Section whole_column.
Context {G : Generator}.
Implicit Types (w : World) (df : DataFrame).


(** X11: when the households of every block lie on one segment, every
    permuted-label column find_p_vals writes equals the TLID column, no
    permuted mean exceeds the true one, and for N >= 1 every averaged
    p-value of the returned table is zero. *)
Theorem find_p_vals_blocks_on_one_segment w data df blk tl N :
  heap w !! data = Some df → households df blk tl → tl ≠ [] → N ≠ 0%nat →
  (∀ r1 r2 b, blk !! r1 = Some b → blk !! r2 = Some b → tl !! r1 = tl !! r2) →
  ∃ aggs w2 dfN T',
    find_p_vals data N w = (Ok aggs, w2) ∧
    heap w2 !! data = Some dfN ∧
    heap w2 !! aggs = Some T' ∧
    index T' = unique_sorted tl ∧
    (∀ i : nat, (i < N)%nat →
       columns dfN !! permuted_name (Z.of_nat i) = Some (Int64 tl)) ∧
    ∀ v r, v ∈ tracked → (r < nrows T')%nat →
      ∃ x, cell T' (avg_name v) r = Some x ∧ is_zero x.
Proof.
  intros Hdf Hh Hnil HN Hconst.
  destruct (households_lengths _ _ _ Hh) as [Hlb Hlt].
  destruct (find_p_vals_result w data df blk tl N)
    as (w2 & dfN & T' & Hrun & Hdata & HT' & Hidx & _ & Havg); [done..|].
  assert (∀ p, length p = length blk →
            (∀ b, group_values blk p b ≡ₚ group_values blk tl b) → p = tl) as Hfix.
  { intros p Hl Hg. apply (constant_groups_fixed blk); [done|congruence|done..]. }
  exists (length (heap w)), w2, dfN, T'. do 4 (split; [done|]). split.
  - intros i Hi. destruct (Havg "A") as (ps & Hps & _); [by left|].
    destruct (Forall2_lookup_l _ _ _ i i Hps) as (x & _ & p & s & Hp & Hl & Hg & _).
    { by apply lookup_seq. }
    by rewrite Hp, (Hfix p Hl Hg).
  - intros v r Hv Hr. destruct (Havg v Hv) as (ps & Hps & Hcol).
    exists (mean ps). split.
    + unfold cell. rewrite Hcol. simpl. apply lookup_replicate_2.
      unfold nrows in Hr. by rewrite Hidx in Hr.
    + apply mean_zero.
      * apply Forall2_length in Hps. rewrite length_seq in Hps.
        intros ->. simpl in Hps. done.
      * clear -Hps Hfix. induction Hps as [|i x js xs (p & s & _ & Hl & Hg & _ & ->) _ IH];
          constructor; [|done].
        rewrite (Hfix p Hl Hg). unfold p_scalar, is_zero.
        rewrite matched_exceed_count_same. done.
Qed.

End whole_column.

(* --------------------------------------------------------------------- *)
(* What average_pvals leaves alone                                       *)
(* --------------------------------------------------------------------- *)

Section average_frame.
Context {G : Generator}.
Implicit Types (w : World) (df : DataFrame).

(* one turn of the loop of average_pvals: the columns are collapsed, or
   the lookup of the per-iteration columns raises and nothing is written *)
Lemma average_pvals_body_cases w l T N c :
  c ∈ tracked → heap w !! l = Some T →
  average_pvals_body l N c w =
    (Ok (), set_heap w (<[l := collapse N T c]> (heap w))) ∨
  ∃ ms, average_pvals_body l N c w = (Raise (KeyError ms), w).
Proof.
  intros Hc HT.
  destruct (missing_labels T (p_name c <$> range N)) as [|m ms] eqn:Hm.
  - left. apply average_pvals_body_ok; [done..|].
    intros j Hj. apply (proj1 (missing_labels_nil _ _) Hm).
    apply p_name_elem; done.
  - right. assert (m ∈ missing_labels T (p_name c <$> range N)) as Hin
      by (rewrite Hm; left).
    apply missing_labels_elem in Hin as [Hnone Hin].
    apply list_elem_of_fmap in Hin as (j & -> & [r Hr]%list_elem_of_lookup).
    apply range_lookup in Hr as [-> Hr].
    destruct (average_pvals_body_raise w l T c N (Z.of_nat r)) as (ms' & Hrun & _);
      [done|lia|done|]. by exists ms'.
Qed.

Lemma average_pvals_loop_frame l N vs : ∀ w T,
  vs ⊆ tracked → heap w !! l = Some T →
  ∃ r T',
    for_ vs (average_pvals_body l N) w = (r, set_heap w (<[l := T']> (heap w))) ∧
    (r = Ok () ∨ ∃ ms, r = Raise (KeyError ms)) ∧
    index T' = index T ∧
    ∀ n, (∀ v, v ∈ vs → n ≠ avg_name v ∧ n ∉ p_name v <$> range N) →
         columns T' !! n = columns T !! n.
Proof.
  induction vs as [|v vs IH]; intros w T Hsub HT.
  { exists (Ok ()), T. split; [|by auto]. simpl. unfold mret, Py_ret, ret, set_heap.
    rewrite list_insert_id by done. by destruct w. }
  assert (v ∈ tracked) as Hv by (apply Hsub; left).
  assert (l < length (heap w))%nat as Hl by by eapply lookup_lt_Some.
  destruct (average_pvals_body_cases w l T N v Hv HT) as [Hok|[ms Hraise]].
  - destruct (IH (set_heap w (<[l := collapse N T v]> (heap w))) (collapse N T v))
      as (r & T' & Hrun & Hr & Hidx & Hcols).
    { intros u Hu. apply Hsub. by right. }
    { simpl. by apply list_lookup_insert_eq. }
    exists r, T'. split.
    { cbn [for_]. rewrite (bind_ok _ _ _ _ _ Hok), Hrun.
      unfold set_heap. cbn [heap py_random np_random].
      by rewrite list_insert_insert_eq. }
    split; [done|]. split; [done|].
    intros n Hn. rewrite Hcols by (intros u Hu; apply Hn; by right).
    apply collapse_lookup_other; apply Hn; left.
  - exists (Raise (KeyError ms)), T. split.
    { cbn [for_]. rewrite (bind_raise _ _ _ _ _ Hraise).
      unfold set_heap. rewrite list_insert_id by done. by destruct w. }
    split; [right; by exists ms|]. done.
Qed.

(** X12: whatever table average_pvals is given, it returns that table
    or raises a KeyError, and in both cases it has written to that
    table alone: the other tables and both generators are as before, the
    table has its rows, and every column that is neither an averaged
    nor a per-iteration p-value column of a tracked variable is as it
    was. *)
Theorem average_pvals_frame w pval_df T N :
  heap w !! pval_df = Some T →
  ∃ r T',
    average_pvals pval_df N w = (r, set_heap w (<[pval_df := T']> (heap w))) ∧
    (r = Ok pval_df ∨ ∃ ms, r = Raise (KeyError ms)) ∧
    index T' = index T ∧
    ∀ n, (∀ v, v ∈ tracked → n ≠ avg_name v ∧ n ∉ p_name v <$> range N) →
         columns T' !! n = columns T !! n.
Proof.
  intros HT.
  destruct (average_pvals_loop_frame pval_df N tracked w T)
    as (r & T' & Hrun & [->|[ms ->]] & Hidx & Hcols); [done..| |].
  - exists (Ok pval_df), T'. split; [|by auto].
    unfold average_pvals. by rewrite (bind_ok _ _ _ _ _ Hrun).
  - exists (Raise (KeyError ms)), T'. split; [|by eauto].
    unfold average_pvals. by rewrite (bind_raise _ _ _ _ _ Hrun).
Qed.

(** X13: average_pvals cannot be applied twice.  After a run over N >= 1
    iterations the per-iteration columns are gone, so a second run with
    the same N raises a KeyError that names the N columns of the first
    variable, A, and changes nothing. *)
Theorem average_pvals_twice w pval_df T N :
  heap w !! pval_df = Some T →
  (∀ v, v ∈ tracked → complete N T v) →
  N ≠ 0%nat →
  ∃ w1,
    average_pvals pval_df N w = (Ok pval_df, w1) ∧
    average_pvals pval_df N w1 =
      (Raise (KeyError (p_name "A" <$> range N)), w1).
Proof.
  intros HT Hcomplete HN.
  assert (pval_df < length (heap w))%nat as Hl by by eapply lookup_lt_Some.
  eexists. split; [by apply average_pvals_ok|].
  set (w1 := set_heap w _).
  assert (heap w1 !! pval_df = Some (foldl (collapse N) T tracked)) as HT1
    by (simpl; by apply list_lookup_insert_eq).
  assert (missing_labels (foldl (collapse N) T tracked) (p_name "A" <$> range N)
          = p_name "A" <$> range N) as Hmissing.
  { unfold missing_labels. apply filter_all.
    intros n (j & -> & [r Hr]%list_elem_of_lookup)%list_elem_of_fmap.
    apply range_lookup in Hr as [-> Hr].
    apply collapsed_lookup_p; [done|apply tracked_NoDup|by left|lia]. }
  unfold average_pvals. apply bind_raise.
  unfold tracked at 1. cbn [for_]. apply bind_raise.
  unfold average_pvals_body.
  rewrite (bind_ok _ _ _ _ _ (deref_ok _ _ _ HT1)).
  apply bind_raise, lift_raise. unfold getitem_list. rewrite Hmissing.
  destruct N as [|N]; [done|]. done.
Qed.

End average_frame.

(* --------------------------------------------------------------------- *)
(* The state of random                                                   *)
(* --------------------------------------------------------------------- *)

Section random_state.
Context {G : Generator}.
Implicit Types (w : World) (df : DataFrame).

(* the loop over the variables leaves the state of random alone *)
Lemma p_value_loop_py_random aggs synth i vs : ∀ w,
  py_random (for_ vs (p_value_body aggs synth i) w).2 = py_random w.
Proof.
  induction vs as [|v vs IH]; intros w; [done|]. cbn [for_].
  unfold mbind, Py_bind, bind.
  assert (py_random (p_value_body aggs synth i v w).2 = py_random w) as Hbody.
  { unfold p_value_body, mbind, Py_bind, bind, deref, lift, store.
    by destruct (p_value _ _ _). }
  destruct (p_value_body aggs synth i v w) as [[[]|e] w1]; [|exact Hbody].
  rewrite IH. exact Hbody.
Qed.

Lemma permute_houses_py_random dem_data seed w :
  py_random (permute_houses dem_data seed w).2 = seed.
Proof.
  unfold permute_houses.
  unfold mbind, Py_bind, bind, random_seed, deref, lift, np_draw, store.
  simpl. destruct (getitem _ "BLKID") as [blkid|]; [|done]. simpl.
  destruct (as_keys blkid) as [keys|]; [|done]. simpl.
  destruct (getitem _ "TLID") as [tlid|]; [|done]. simpl.
  by destruct (series_transform_permutation _ _ _) as [permuted g].
Qed.

(* an iteration, whatever its outcome, leaves random seeded with its
   number *)
Lemma iteration_body_py_random data aggs i w :
  py_random (iteration_body data aggs i w).2 = i.
Proof.
  unfold iteration_body. unfold mbind, Py_bind, bind.
  pose proof (permute_houses_py_random data i w) as Hp.
  destruct (permute_houses data i w) as [[l|e] w1]; [|exact Hp]. simpl in Hp.
  unfold deref, lift.
  destruct (groupby_mean _ _ _) as [synth|]; [|exact Hp].
  unfold ret. by rewrite p_value_loop_py_random.
Qed.

Lemma iterations_py_random data aggs (xs : list Z) : ∀ w w',
  for_ xs (iteration_body data aggs) w = (Ok (), w') →
  py_random w' = default (py_random w) (last xs).
Proof.
  induction xs as [|x xs IH]; intros w w' Hrun.
  { by injection Hrun as <-. }
  cbn [for_] in Hrun. unfold mbind, Py_bind, bind in Hrun.
  pose proof (iteration_body_py_random data aggs x w) as Hx.
  destruct (iteration_body data aggs x w) as [[[]|e] w1]; [|done].
  rewrite (IH _ _ Hrun). simpl in Hx. rewrite Hx, last_cons.
  by destruct (last xs).
Qed.

(** X14: find_p_vals leaves the generator of random seeded with the
    number of its last iteration, N - 1, whatever state the caller had
    put it in; with N = 0 the state of random is as before. *)
Theorem find_p_vals_reseeds_random w data df blk tl N :
  heap w !! data = Some df → households df blk tl → tl ≠ [] →
  ∃ aggs w2,
    find_p_vals data N w = (Ok aggs, w2) ∧
    py_random w2 = if decide (N = 0%nat) then py_random w else Z.of_nat N - 1.
Proof.
  intros Hdf Hh Hnil.
  destruct (find_p_vals_ok w data df blk tl N)
    as (w1 & dfN & T & Hcompute & _ & _ & _ & Hrun); [done..|].
  eexists _, _. split; [exact Hrun|]. unfold set_heap. cbn [py_random].
  destruct Hh as (_ & _ & Htl & Hvars).
  unfold compute_pvalues in Hcompute.
  rewrite (bind_ok _ _ _ _ _ (deref_ok _ _ _ Hdf)) in Hcompute.
  rewrite (bind_ok _ _ _ _ _ (lift_ok _ _ _
             (groupby_mean_ok df "TLID" tracked tl Htl Hvars))) in Hcompute.
  unfold mbind, Py_bind, bind, alloc in Hcompute.
  destruct (for_ (range N) _ _) as [[[]|e] w'] eqn:Hfor; [|done].
  injection Hcompute as <-.
  rewrite (iterations_py_random _ _ _ _ _ Hfor). cbn [py_random].
  destruct N as [|N]; [done|]. rewrite decide_False by done.
  unfold range. rewrite seq_S, fmap_app.
  change (Z.of_nat <$> [(0 + N)%nat]) with [Z.of_nat N].
  rewrite last_snoc. simpl. lia.
Qed.

End random_state.

(* --------------------------------------------------------------------- *)
(* The further properties on the example tables                          *)
(* --------------------------------------------------------------------- *)

Lemma permute_houses_missing_key_witness :
  permute_houses 0%nat 7 ex_no_blkid_world =
    (Raise (KeyError ["BLKID"]), @mkWorld lcg 7 42 [ex_no_blkid]) ∧
  permute_houses 0%nat 7 ex_no_tlid_world =
    (Raise (KeyError ["TLID"]), @mkWorld lcg 7 42 [ex_no_tlid]).
Proof.
  split.
  - apply (proj1 (permute_houses_missing_key (G := lcg) ex_no_blkid_world 0%nat 7
                    ex_no_blkid eq_refl)).
    vm_compute. reflexivity.
  - apply (proj2 (permute_houses_missing_key (G := lcg) ex_no_tlid_world 0%nat 7
                    ex_no_tlid eq_refl) [10; 10; 10; 20]).
    + vm_compute. reflexivity.
    + vm_compute. reflexivity.
Defined.

Lemma find_p_vals_missing_column_witness :
  ∃ ms,
    find_p_vals 0%nat 3 ex_no_variable_world =
      (Raise (KeyError ms), ex_no_variable_world) ∧
    "C" ∈ ms.
Proof.
  destruct (find_p_vals_missing_column (G := lcg) ex_no_variable_world 0%nat
              ex_no_variable 3 "C" eq_refl) as (ms & Hrun & Hin & _).
  - do 3 right. left.
  - vm_compute. reflexivity.
  - exists ms. exact (conj Hrun Hin).
Defined.

Lemma find_p_vals_missing_block_key_witness :
  find_p_vals 0%nat 3 ex_no_blkid_world =
    (Raise (KeyError ["BLKID"]),
     @mkWorld lcg 0 42
       [ex_no_blkid; aggregate ex_no_blkid "TLID" [1; 2; 3; 4] tracked]).
Proof.
  apply (find_p_vals_missing_block_key (G := lcg) ex_no_blkid_world 0%nat
           ex_no_blkid [1; 2; 3; 4] 3 eq_refl).
  - vm_compute. reflexivity.
  - intros v Hv. tracked_cases Hv; by eexists.
  - vm_compute. reflexivity.
  - discriminate.
Defined.

Lemma find_p_vals_zero_iterations_witness :
  ∃ T',
    find_p_vals 0%nat 0 ex_empty_world =
      (Ok 1%nat, set_heap ex_empty_world (heap ex_empty_world ++ [T'])) ∧
    index T' = unique_sorted [].
Proof.
  destruct (find_p_vals_zero_iterations (G := lcg) ex_empty_world 0%nat ex_empty []
              eq_refl) as (T' & Hrun & Hidx & _).
  - vm_compute. reflexivity.
  - intros v Hv. tracked_cases Hv; by eexists.
  - exists T'. exact (conj Hrun Hidx).
Defined.

Lemma find_p_vals_true_means_witness :
  ∃ aggs w2 T',
    find_p_vals 0%nat 2 ex_world = (Ok aggs, w2) ∧
    heap w2 !! aggs = Some T' ∧
    index T' = unique_sorted [1; 2; 3; 4].
Proof.
  destruct (find_p_vals_true_means (G := lcg) ex_world 0%nat ex_table
              [10; 10; 10; 20] [1; 2; 3; 4] 2 eq_refl ex_table_households
              ltac:(discriminate)) as (aggs & w2 & T' & Hrun & HT' & Hidx & _).
  exists aggs, w2, T'. exact (conj Hrun (conj HT' Hidx)).
Defined.

Lemma find_p_vals_one_row_per_segment_witness :
  ∃ aggs w2 T',
    find_p_vals 0%nat 2 ex_world = (Ok aggs, w2) ∧
    heap w2 !! aggs = Some T' ∧
    NoDup (index T').
Proof.
  destruct (find_p_vals_one_row_per_segment (G := lcg) ex_world 0%nat ex_table
              [10; 10; 10; 20] [1; 2; 3; 4] 2 eq_refl ex_table_households
              ltac:(discriminate)) as (aggs & w2 & T' & Hrun & HT' & _ & Hnd & _).
  exists aggs, w2, T'. exact (conj Hrun (conj HT' Hnd)).
Defined.

Lemma find_p_vals_averaged_column_witness :
  ∃ aggs w2 T' perms,
    find_p_vals 0%nat 2 ex_world = (Ok aggs, w2) ∧
    heap w2 !! aggs = Some T' ∧
    length perms = 2%nat ∧
    columns T' !! avg_name "A" =
      Some (Float64 (replicate (nrows T')
              (mean ((λ p, p_scalar p [1; 2; 3; 4]
                             (Float64 [Fin 1; Fin 3; Fin 5; Fin 2])) <$> perms)))).
Proof.
  destruct (find_p_vals_averaged_column (G := lcg) ex_world 0%nat ex_table
              [10; 10; 10; 20] [1; 2; 3; 4] 2 "A"
              (Float64 [Fin 1; Fin 3; Fin 5; Fin 2]) eq_refl ex_table_households
              ltac:(discriminate))
    as (aggs & w2 & dfN & T' & perms & Hrun & _ & HT' & Hlen & _ & Hcol).
  - left.
  - reflexivity.
  - exists aggs, w2, T', perms. exact (conj Hrun (conj HT' (conj Hlen Hcol))).
Defined.

Lemma find_p_vals_fresh_table_witness :
  ∃ w2,
    find_p_vals 0%nat 2 ex_world = (Ok 1%nat, w2) ∧
    length (heap w2) = 2%nat.
Proof.
  destruct (find_p_vals_fresh_table (G := lcg) ex_world 0%nat ex_table
              [10; 10; 10; 20] [1; 2; 3; 4] 2 eq_refl ex_table_households
              ltac:(discriminate)) as (w2 & Hrun & Hlen & _).
  exists w2. exact (conj Hrun Hlen).
Defined.

Lemma find_p_vals_again_witness :
  ∃ aggs w2 aggs' w3,
    find_p_vals 0%nat 2 ex_world = (Ok aggs, w2) ∧
    find_p_vals 0%nat 2 w2 = (Ok aggs', w3) ∧
    aggs' ≠ aggs.
Proof.
  destruct (find_p_vals_again (G := lcg) ex_world 0%nat ex_table
              [10; 10; 10; 20] [1; 2; 3; 4] 2 eq_refl ex_table_households
              ltac:(discriminate))
    as (aggs & w2 & dfN & aggs' & w3 & dfN' & Hrun & _ & Hrun' & _ & Hne & _).
  exists aggs, w2, aggs', w3. exact (conj Hrun (conj Hrun' Hne)).
Defined.


Lemma find_p_vals_blocks_on_one_segment_witness :
  ∃ aggs w2 dfN,
    find_p_vals 0%nat 2 ex_one_segment_world = (Ok aggs, w2) ∧
    heap w2 !! 0%nat = Some dfN ∧
    columns dfN !! permuted_name 1 = Some (Int64 [1; 1; 2]).
Proof.
  destruct (find_p_vals_blocks_on_one_segment (G := lcg) ex_one_segment_world
              0%nat ex_one_segment [10; 10; 20] [1; 1; 2] 2 eq_refl
              ex_one_segment_households ltac:(discriminate) ltac:(discriminate))
    as (aggs & w2 & dfN & T' & Hrun & Hdata & _ & _ & Hperm & _).
  - intros r1 r2 b H1 H2.
    destruct r1 as [|[|[|r1]]], r2 as [|[|[|r2]]]; simplify_eq/=; done.
  - exists aggs, w2, dfN. split; [exact Hrun|]. split; [exact Hdata|].
    apply (Hperm 1%nat). lia.
Defined.

Lemma average_pvals_frame_witness :
  ∃ r T',
    average_pvals 0%nat 2 ex_incomplete_world =
      (r, set_heap ex_incomplete_world (<[0%nat := T']> (heap ex_incomplete_world))) ∧
    index T' = index ex_incomplete.
Proof.
  destruct (average_pvals_frame (G := lcg) ex_incomplete_world 0%nat ex_incomplete 2
              eq_refl) as (r & T' & Hrun & _ & Hidx & _).
  exists r, T'. exact (conj Hrun Hidx).
Defined.

Lemma average_pvals_twice_witness :
  ∃ w1,
    average_pvals 0%nat 2 ex_pvalues_world = (Ok 0%nat, w1) ∧
    average_pvals 0%nat 2 w1 = (Raise (KeyError (p_name "A" <$> range 2)), w1).
Proof.
  apply (average_pvals_twice (G := lcg) ex_pvalues_world 0%nat ex_pvalues 2 eq_refl).
  - intros v Hv j Hj. by apply ex_pvalues_complete.
  - discriminate.
Defined.

Lemma find_p_vals_reseeds_random_witness :
  ∃ aggs w2,
    find_p_vals 0%nat 3 ex_world = (Ok aggs, w2) ∧
    py_random w2 = 2.
Proof.
  destruct (find_p_vals_reseeds_random (G := lcg) ex_world 0%nat ex_table
              [10; 10; 10; 20] [1; 2; 3; 4] 3 eq_refl ex_table_households
              ltac:(discriminate)) as (aggs & w2 & Hrun & Hpy).
  exists aggs, w2. exact (conj Hrun Hpy).
Defined.
